(** * drafts-to-md: a shallow embedding of [drafts-to-md.py]

    The script reads a Drafts export (a JSON list of entries), derives a
    file name for every note from the first sentence of its text, makes
    the names unique ([dedup_paths]) and writes one Markdown file with
    frontmatter per note.

    Conventions of the embedding.
    - A Python [str] is a [string]; a character is an [ascii], read as a
      code point below 256.  [len] is [String.length].
    - An insertion-ordered [dict] is an association list with distinct
      keys, oldest key first; [defaultdict(list)] adds the missing-key
      behaviour of its [__getitem__].
    - An exception is a value of [exn]; a function that may raise
      returns a [result].
    - Objects that the script mutates in place live in an explicit
      store: the two groupings that [dedup_paths] swaps, and the
      [metadata] dictionaries that [write_note] updates. *)

From Stdlib Require Import String Ascii List Arith Bool Lia ZArith.
From Stdlib Require Import Permutation DecimalString DecimalNat DecimalFacts.
Import ListNotations.

Local Open Scope list_scope.
Local Open Scope string_scope.
Local Open Scope nat_scope.

Set Implicit Arguments.

(* ================================================================== *)
(** ** Exceptions and results *)

Inductive exn : Type :=
| RuntimeError (msg : string)
| IndexError
| KeyError (key : string)
| TypeError
| ValueError.

Inductive result (A : Type) : Type :=
| Ok (a : A)
| Raise (e : exn).

Arguments Ok {A} a.
Arguments Raise {A} e.

Definition bind {A B : Type} (r : result A) (k : A -> result B) : result B :=
  match r with
  | Ok a => k a
  | Raise e => Raise e
  end.

Notation "x <- r ;; k" := (bind r (fun x => k))
  (at level 61, r at next level, right associativity).

(* ================================================================== *)
(** ** Python string operations used by the script *)

Module Str.

(** [c.isspace()] for a code point below 256: TAB..CR, FS..US, space,
    NEL and NBSP. *)
Definition isspace (c : ascii) : bool :=
  let n := nat_of_ascii c in
  (((9 <=? n) && (n <=? 13)) || ((28 <=? n) && (n <=? 32))
   || (n =? 133) || (n =? 160))%nat.

(** [s.rstrip()]: drop the longest all-whitespace suffix. *)
Fixpoint rstrip (s : string) : string :=
  match s with
  | EmptyString => EmptyString
  | String c t =>
      match rstrip t with
      | EmptyString => if isspace c then EmptyString else String c EmptyString
      | r => String c r
      end
  end.

(** [s] with the prefix [p] taken off, when [s] starts with [p]. *)
Fixpoint strip_prefix (p s : string) : option string :=
  match p, s with
  | EmptyString, _ => Some s
  | String a p', String b s' =>
      if Ascii.eqb a b then strip_prefix p' s' else None
  | String _ _, EmptyString => None
  end.

(** [s.removeprefix(p)]. *)
Definition removeprefix (s p : string) : string :=
  match strip_prefix p s with
  | Some r => r
  | None => s
  end.

(** [s.translate(table)] for a table given as a function on
    characters (every entry of the script's table maps one character
    to one character). *)
Fixpoint translate (table : ascii -> ascii) (s : string) : string :=
  match s with
  | EmptyString => EmptyString
  | String c t => String (table c) (translate table t)
  end.

(** [str(n)] for a non-negative [int]. *)
Definition of_nat (n : nat) : string := NilEmpty.string_of_uint (Nat.to_uint n).

(** A number on at least [width] digits, filled with zeros on the
    left, as [strftime] prints the fields of a date. *)
Fixpoint zeros (k : nat) : string :=
  match k with
  | 0 => EmptyString
  | S k' => String "0" (zeros k')
  end.

Definition zfill (width n : nat) : string :=
  let s := of_nat n in
  zeros (width - String.length s) ++ s.

(** The last character of [s] exists and is not whitespace. *)
Fixpoint ends_nonspace (s : string) : bool :=
  match s with
  | EmptyString => false
  | String c EmptyString => negb (isspace c)
  | String _ t => ends_nonspace t
  end.

(** Every character of [s] is a decimal digit. *)
Fixpoint all_digits (s : string) : bool :=
  match s with
  | EmptyString => true
  | String c t =>
      let n := nat_of_ascii c in
      (48 <=? n) && (n <=? 57) && all_digits t
  end.

End Str.

(* ================================================================== *)
(** ** Insertion-ordered dictionaries *)

Module Dict.
Section Dict.
Variable V : Type.

Definition t : Type := list (string * V).

Definition keys (d : t) : list string := map fst d.
Definition values (d : t) : list V := map snd d.

(** [d.get(k)] *)
Fixpoint get (d : t) (k : string) : option V :=
  match d with
  | [] => None
  | (k', v) :: d' => if String.eqb k' k then Some v else get d' k
  end.

(** [k in d] *)
Definition mem (k : string) (d : t) : bool :=
  match get d k with
  | Some _ => true
  | None => false
  end.

(** [d[k] = v]: an existing key keeps its place, a new key goes last. *)
Fixpoint set (d : t) (k : string) (v : V) : t :=
  match d with
  | [] => [(k, v)]
  | (k', v') :: d' =>
      if String.eqb k' k then (k', v) :: d' else (k', v') :: set d' k v
  end.

(** A dictionary has each key once. *)
Definition wf (d : t) : Prop := NoDup (keys d).

End Dict.
End Dict.

(* ================================================================== *)
(** ** Timestamps *)

(** A [datetime.datetime] to the second; [tzoffset] is the UTC offset
    in minutes of an aware value and [None] for a naive one. *)
Record datetime : Type := mkDatetime {
  year : nat; month : nat; day : nat;
  hour : nat; minute : nat; second : nat;
  tzoffset : option Z
}.

Module Datetime.

(** [f"{d:%Y-%m-%d}"], the year on four digits (what every platform
    prints from the year 1000 on). *)
Definition format_date (d : datetime) : string :=
  Str.zfill 4 (year d) ++ "-" ++ Str.zfill 2 (month d) ++ "-" ++ Str.zfill 2 (day d).

(** The [%H-%M-%S] part of a format. *)
Definition format_time (d : datetime) : string :=
  Str.zfill 2 (hour d) ++ "-" ++ Str.zfill 2 (minute d) ++ "-" ++ Str.zfill 2 (second d).

(** [f"{d:%Y-%m-%d %H-%M-%S}"] *)
Definition format_datetime (d : datetime) : string :=
  format_date d ++ " " ++ format_time d.

Definition format_offset (o : option Z) : string :=
  match o with
  | None => ""
  | Some m =>
      let a := Z.to_nat (Z.abs m) in
      (if (m <? 0)%Z then "-" else "+")
        ++ Str.zfill 2 (a / 60) ++ ":" ++ Str.zfill 2 (a mod 60)
  end.

(** [d.isoformat()] *)
Definition isoformat (d : datetime) : string :=
  format_date d ++ "T"
    ++ Str.zfill 2 (hour d) ++ ":" ++ Str.zfill 2 (minute d) ++ ":" ++ Str.zfill 2 (second d)
    ++ format_offset (tzoffset d).

End Datetime.

(* ================================================================== *)
(** ** Notes *)

(** A JSON value as [json.load] returns it; a number, an array and an
    object keep their text. *)
Inductive json : Type :=
| JNull
| JBool (b : bool)
| JNum (literal : string)
| JStr (s : string)
| JArray (text : string)
| JObject (text : string).

(** The [metadata] dictionaries are mutable objects: a note holds the
    address of its dictionary in the store [heap]. *)
Definition loc : Type := nat.
Definition heap : Type := list (Dict.t json).

(** [class Note(NamedTuple)] *)
Record Note : Type := mkNote {
  metadata : loc;
  created : datetime;
  modified : datetime;
  content : string
}.

(** A [defaultdict(list)] from path to the notes that share it. *)
Definition grouping : Type := Dict.t (list Note).

(** [d[k].extend(vs)] on a [defaultdict(list)]: a missing key is first
    created with the empty list. *)
Fixpoint dd_extend (d : grouping) (k : string) (vs : list Note) : grouping :=
  match d with
  | [] => [(k, vs)]
  | (k', l) :: d' =>
      if String.eqb k' k then (k', (l ++ vs)%list) :: d'
      else (k', l) :: dd_extend d' k vs
  end.

(** [d[k].append(v)] on a [defaultdict(list)]. *)
Definition dd_append (d : grouping) (k : string) (v : Note) : grouping :=
  dd_extend d k [v].

(** Every note of a grouping, in iteration order. *)
Definition all_notes (g : grouping) : list Note := concat (Dict.values g).

(* ================================================================== *)
(** ** [dedup_paths] *)

(** *** The three local functions *)

Definition _prepend_date (path : string) (note : Note) : string :=
  Datetime.format_date (created note) ++ " " ++ path.

Definition _prepend_datetime (path : string) (note : Note) : string :=
  let path := Str.removeprefix path (Datetime.format_date (created note)) in
  Datetime.format_datetime (created note) ++ " " ++ path.

(** The body of [for seqno in range(1, 1000)], started at [seqno] with
    [left] values of the range still to try. *)
Fixpoint seqno_loop (working : grouping) (path : string) (seqno left : nat)
  : result string :=
  match left with
  | 0 => Raise (RuntimeError ("could not dedup path: " ++ path))
  | S left' =>
      let newpath := path ++ " " ++ Str.of_nat seqno in
      if Dict.mem newpath working then seqno_loop working path (S seqno) left'
      else Ok newpath
  end.

(** [_append_seqno] reads the variable [working] of the enclosing call. *)
Definition _append_seqno (working : grouping) (path : string) (_ : Note)
  : result string :=
  seqno_loop working path 1 999.

(** *** Schemes *)

Inductive uniquify_fn : Type := PrependDate | PrependDatetime | AppendSeqno.

Definition call (fn : uniquify_fn) (working : grouping) (path : string) (note : Note)
  : result string :=
  match fn with
  | PrependDate => Ok (_prepend_date path note)
  | PrependDatetime => Ok (_prepend_datetime path note)
  | AppendSeqno => _append_seqno working path note
  end.

(** The two values that [--dedup] accepts. *)
Inductive scheme : Type := datetime_scheme | seqno_scheme.

Definition dedup_schemes (s : scheme) : list uniquify_fn :=
  match s with
  | datetime_scheme => [PrependDate; PrependDatetime; AppendSeqno]
  | seqno_scheme => [PrependDate; AppendSeqno]
  end.

(** *** One round *)

(** The state of the loops that fill [working]: its contents, the
    number of calls of a uniquify function so far (a ghost counter),
    and the exception that stopped the loops, if one did. *)
Record filled : Type := mkFilled {
  f_working : grouping;
  f_calls : nat;
  f_raised : option exn
}.

(** [for dup in dups: newpath = uniquify_fn(path, dup).rstrip();
     working[newpath].append(dup)] *)
Fixpoint fill_dups (fn : uniquify_fn) (path : string) (dups : list Note)
    (working : grouping) (calls : nat) : filled :=
  match dups with
  | [] => mkFilled working calls None
  | dup :: dups' =>
      match call fn working path dup with
      | Raise e => mkFilled working (S calls) (Some e)
      | Ok s =>
          let newpath := Str.rstrip s in
          fill_dups fn path dups' (dd_append working newpath dup) (S calls)
      end
  end.

(** [for path, dups in notes.items(): ...] *)
Fixpoint fill (fn : uniquify_fn) (notes : grouping) (working : grouping) (calls : nat)
  : filled :=
  match notes with
  | [] => mkFilled working calls None
  | (path, dups) :: notes' =>
      if 1 <? length dups then
        let r := fill_dups fn path dups working calls in
        match f_raised r with
        | Some _ => r
        | None => fill fn notes' (f_working r) (f_calls r)
        end
      else fill fn notes' (dd_extend working path dups) calls
  end.

(** The attempt to build [result] from [working]. *)
Inductive collapsed : Type :=
| Built (result : Dict.t Note)   (* the loop ran to its end *)
| Conflict                        (* [result.clear(); break] *)
| EmptyGroup.                     (* [dups[0]] raised [IndexError] *)

Fixpoint collapse (working : grouping) (result : Dict.t Note) : collapsed :=
  match working with
  | [] => Built result
  | (path, dups) :: working' =>
      if 1 <? length dups then Conflict
      else
        match dups with
        | [] => EmptyGroup
        | dup0 :: _ => collapse working' (Dict.set result path dup0)
        end
  end.

(** *** The call *)

(** The two dictionaries alive during a call: the one the caller
    passed in and the one created by [working = defaultdict(list)]. *)
Inductive obj : Type := CallerDict | LocalDict.

Record store : Type := mkStore {
  caller_dict : grouping;
  local_dict : grouping
}.

Definition rd (s : store) (o : obj) : grouping :=
  match o with
  | CallerDict => caller_dict s
  | LocalDict => local_dict s
  end.

Definition wr (s : store) (o : obj) (g : grouping) : store :=
  match o with
  | CallerDict => mkStore g (local_dict s)
  | LocalDict => mkStore (caller_dict s) g
  end.

(** What a call leaves behind: the value returned or the exception
    raised, the caller's dictionary as the call left it, and the
    number of calls of a uniquify function. *)
Record outcome : Type := mkOutcome {
  returned : result (Dict.t Note);
  caller_after : grouping;
  calls : nat
}.

(** [for uniquify_fn in dedup_schemes[dedup_scheme]: ...], with the
    variables [notes] and [working] naming objects of the store. *)
Fixpoint rounds (fns : list uniquify_fn) (s : store) (notes working : obj) (n : nat)
  : outcome :=
  match fns with
  | [] =>
      mkOutcome (Raise (RuntimeError "Could not dedup notes successfully, aborting"))
                (caller_dict s) n
  | fn :: fns' =>
      let r := fill fn (rd s notes) (rd s working) n in
      let s1 := wr s working (f_working r) in
      match f_raised r with
      | Some e => mkOutcome (Raise e) (caller_dict s1) (f_calls r)
      | None =>
          match collapse (f_working r) [] with
          | EmptyGroup => mkOutcome (Raise IndexError) (caller_dict s1) (f_calls r)
          | Built (item :: result) =>
              (* [if result: return result] *)
              mkOutcome (Ok (item :: result)) (caller_dict s1) (f_calls r)
          | Built [] | Conflict =>
              (* [notes, working = working, notes; working.clear()] *)
              rounds fns' (wr s1 notes []) working notes (f_calls r)
          end
      end
  end.

(** [dedup_paths(notes, dedup_scheme)], called with a
    [defaultdict(list)] as [main] does. *)
Definition dedup_paths (notes : grouping) (dedup_scheme : scheme) : outcome :=
  rounds (dedup_schemes dedup_scheme) (mkStore notes []) CallerDict LocalDict 0.

(* ================================================================== *)
(** ** [parse_infile] *)

Definition MAX_TITLE_LEN : nat := 40.

(** [RE_SEP = r"[.\n]"]: the characters the pattern matches. *)
Definition RE_SEP (c : ascii) : bool :=
  Ascii.eqb c "." || Ascii.eqb c "010".

(** [TITLE_TO_FILENAME], as the function [str.translate] applies. *)
Definition TITLE_TO_FILENAME (c : ascii) : ascii :=
  if Ascii.eqb c "/" then "_"%char
  else if Ascii.eqb c ":" then "-"%char
  else c.

Definition METADATA_KEYS : list string :=
  ["created_latitude"; "created_longitude"; "modified_latitude"; "modified_longitude"].

(** The text before and after the first match of [RE_SEP]. *)
Fixpoint first_match (s : string) : option (string * string) :=
  match s with
  | EmptyString => None
  | String c t =>
      if RE_SEP c then Some (EmptyString, t)
      else
        match first_match t with
        | Some (before, after) => Some (String c before, after)
        | None => None
        end
  end.

(** [re.split(RE_SEP, s, maxsplit=1)] *)
Definition re_split (s : string) : list string :=
  match first_match s with
  | Some (before, after) => [before; after]
  | None => [s]
  end.

(** Lines 47-52: the title and the text that stays in
    [entry['content']]. *)
Definition split_title (content : string) : string * string :=
  let res := re_split content in
  match res with
  | [res0; res1] =>
      if String.length res0 <? MAX_TITLE_LEN then (res0, res1)
      else (EmptyString, content)
  | _ => (EmptyString, content)
  end.

(** [d[k]] on a plain [dict]. *)
Definition getitem (d : Dict.t json) (k : string) : result json :=
  match Dict.get d k with
  | Some v => Ok v
  | None => Raise (KeyError k)
  end.

(** The script hands [entry['content']] to [re.split] and the two
    timestamps to [isoparse]; both want a [str]. *)
Definition as_str (v : json) : result string :=
  match v with
  | JStr s => Ok s
  | _ => Raise TypeError
  end.

Definition mem_string (k : string) (l : list string) : bool :=
  existsb (String.eqb k) l.

Section Parse.

(** [dateutil.parser.isoparse] belongs to a library; the functions
    below take it as a parameter. *)
Variable isoparse : string -> result datetime.

(** One turn of the loop of [parse_infile]: the path and the note it
    yields, and the store with the note's new [metadata] dictionary.
    Where no title is split off, [entry['content']] is written back
    with the value it has. *)
Definition parse_entry (h : heap) (entry : Dict.t json)
  : result (string * Note * heap) :=
  c <- getitem entry "content" ;;
  s <- as_str c ;;
  let '(title, rest) := split_title s in
  let entry := Dict.set entry "content" (JStr rest) in
  let path := Str.translate TITLE_TO_FILENAME title in
  let md := filter (fun kv => mem_string (fst kv) METADATA_KEYS) entry in
  ca <- getitem entry "created_at" ;;
  cs <- as_str ca ;;
  cr <- isoparse cs ;;
  ma <- getitem entry "modified_at" ;;
  ms <- as_str ma ;;
  mo <- isoparse ms ;;
  c' <- getitem entry "content" ;;
  s' <- as_str c' ;;
  Ok (path, mkNote (List.length h) cr mo s', (h ++ [md])%list).

(** [parse_infile], run to its end as [main] runs it. *)
Fixpoint parse_infile (h : heap) (infile : list (Dict.t json))
  : result (list (string * Note) * heap) :=
  match infile with
  | [] => Ok ([], h)
  | entry :: infile' =>
      r <- parse_entry h entry ;;
      let '(path, note, h1) := r in
      r' <- parse_infile h1 infile' ;;
      let '(rest, h2) := r' in
      Ok ((path, note) :: rest, h2)
  end.

End Parse.

(* ================================================================== *)
(** ** [write_note] and [main] *)

(** A [pathlib.Path], as its parts. *)
Definition Path : Type := list string.

(** A file written by [frontmatter.dump] and stamped by [os.utime]:
    the header, the body, and the instant both of its times are set to. *)
Record file : Type := mkFile {
  header : Dict.t json;
  body : string;
  times : datetime
}.

Definition path_eqb (p q : Path) : bool :=
  if list_eq_dec string_dec p q then true else false.

(** The files under the paths the script looks at. *)
Definition filesystem : Type := list (Path * file).

Fixpoint fs_get (fs : filesystem) (p : Path) : option file :=
  match fs with
  | [] => None
  | (q, f) :: fs' => if path_eqb q p then Some f else fs_get fs' p
  end.

Fixpoint fs_put (fs : filesystem) (p : Path) (f : file) : filesystem :=
  match fs with
  | [] => [(p, f)]
  | (q, g) :: fs' => if path_eqb q p then (q, f) :: fs' else (q, g) :: fs_put fs' p f
  end.

Definition heap_get (h : heap) (l : loc) : Dict.t json :=
  nth l h [].

Fixpoint heap_set (h : heap) (l : loc) (d : Dict.t json) : heap :=
  match h, l with
  | [], _ => []
  | _ :: h', 0 => d :: h'
  | d' :: h', S l' => d' :: heap_set h' l' d
  end.

(** [write_note(path, note)]: the dictionary [note.metadata] is updated
    in place, then written with the content; both file times are set
    to [note.created]. *)
Definition write_note (path : Path) (note : Note) (h : heap) (fs : filesystem)
  : heap * filesystem :=
  let md := heap_get h (metadata note) in
  let md := Dict.set md "created" (JStr (Datetime.isoformat (created note))) in
  let md := Dict.set md "modified" (JStr (Datetime.isoformat (modified note))) in
  let h' := heap_set h (metadata note) md in
  (h', fs_put fs path (mkFile md (content note) (created note))).

(** [path.with_suffix(suffix)] on the last part of a path. *)
Fixpoint before_last_dot (s : string) : option string :=
  match s with
  | EmptyString => None
  | String c t =>
      match before_last_dot t with
      | Some p => Some (String c p)
      | None => if Ascii.eqb c "." then Some EmptyString else None
      end
  end.

Definition name_with_suffix (name suffix : string) : result string :=
  match name with
  | EmptyString => Raise ValueError
  | String c t =>
      match before_last_dot t with
      | Some stem =>
          if String.length stem + 1 <? String.length t
          then Ok (String c stem ++ suffix)
          else Ok (name ++ suffix)
      | None => Ok (name ++ suffix)
      end
  end.

Fixpoint with_suffix (p : Path) (suffix : string) : result Path :=
  match p with
  | [] => Raise ValueError
  | [name] => name' <- name_with_suffix name suffix ;; Ok [name']
  | part :: p' => p'' <- with_suffix p' suffix ;; Ok (part :: p'')
  end.

(** [outdir / p] for a [p] that holds no separator: the empty string
    adds no part. *)
Definition joinpath (outdir : Path) (p : string) : Path :=
  match p with
  | EmptyString => outdir
  | _ => (outdir ++ [p])%list
  end.

(** The arguments after [parse_cmdline], the input file already read
    by [json.load]. *)
Record args : Type := mkArgs {
  infile : list (Dict.t json);
  outdir : Path;
  overwrite : bool;
  dedup : scheme
}.

(** [notes_dups[path].append(note)] for every pair, in order. *)
Definition group_notes (pairs : list (string * Note)) : grouping :=
  fold_left (fun g pn => dd_append g (fst pn) (snd pn)) pairs [].

Definition paths_set (d : list (Path * Note)) (p : Path) (n : Note)
  : list (Path * Note) :=
  if existsb (fun qn => path_eqb (fst qn) p) d
  then map (fun qn => if path_eqb (fst qn) p then (fst qn, n) else qn) d
  else (d ++ [(p, n)])%list.

(** The dictionary comprehension of [main]. *)
Fixpoint target_paths (outdir : Path) (items : Dict.t Note) (acc : list (Path * Note))
  : result (list (Path * Note)) :=
  match items with
  | [] => Ok acc
  | (p, n) :: items' =>
      q <- with_suffix (joinpath outdir p) ".md" ;;
      target_paths outdir items' (paths_set acc q n)
  end.

Definition write_all (notes : list (Path * Note)) (h : heap) (fs : filesystem)
  : heap * filesystem :=
  fold_left (fun st pn => write_note (fst pn) (snd pn) (fst st) (snd st)) notes (h, fs).

Section Main.

Variable isoparse : string -> result datetime.

(** [main]: the store and the file system it leaves, or the
    exception that ends the run. *)
Definition main (a : args) (fs : filesystem) : result (heap * filesystem) :=
  r <- parse_infile isoparse [] (infile a) ;;
  let '(pairs, h) := r in
  let notes_dups := group_notes pairs in
  let n_notes := List.length pairs in
  if n_notes =? 0 then Raise (RuntimeError "Aborting, no notes read from input")
  else
    res <- returned (dedup_paths notes_dups (dedup a)) ;;
    notes <- target_paths (outdir a) res [] ;;
    let existing := filter (fun pn => match fs_get fs (fst pn) with
                                      | Some _ => true
                                      | None => false
                                      end) notes in
    match overwrite a, existing with
    | false, (p, _) :: _ =>
        Raise (RuntimeError ("Aborting, use '--overwrite' to overwrite existing file "
                             ++ String.concat "/" p))
    | _, _ => Ok (write_all notes h fs)
    end.

End Main.

(** A model of [isoparse] on the texts [YYYY-MM-DDTHH:MM:SS] followed
    by nothing, by [Z] or by an offset [+HH:MM] or [-HH:MM]; any other
    text is refused here. *)
Module Iso.

Definition digit (c : ascii) : option nat :=
  let n := nat_of_ascii c in
  if (48 <=? n) && (n <=? 57) then Some (n - 48) else None.

(** The number written by the first [k] characters, and the rest. *)
Fixpoint number (k : nat) (acc : nat) (s : string) : option (nat * string) :=
  match k with
  | 0 => Some (acc, s)
  | S k' =>
      match s with
      | String c t =>
          match digit c with
          | Some d => number k' (10 * acc + d) t
          | None => None
          end
      | EmptyString => None
      end
  end.

Definition expect (c : ascii) (s : string) : option string :=
  match s with
  | String c' t => if Ascii.eqb c c' then Some t else None
  | EmptyString => None
  end.

Definition offset (s : string) : option (option Z) :=
  match s with
  | EmptyString => Some None
  | String c t =>
      if Ascii.eqb c "Z" then
        match t with EmptyString => Some (Some 0%Z) | _ => None end
      else
        let sign := if Ascii.eqb c "+" then Some 1%Z
                    else if Ascii.eqb c "-" then Some (-1)%Z else None in
        match sign, number 2 0 t with
        | Some sg, Some (hh, t1) =>
            match expect ":" t1 with
            | Some t2 =>
                match number 2 0 t2 with
                | Some (mm, EmptyString) => Some (Some (sg * Z.of_nat (60 * hh + mm))%Z)
                | _ => None
                end
            | None => None
            end
        | _, _ => None
        end
  end.

Definition parse (s : string) : option datetime :=
  match number 4 0 s with
  | Some (y, s) =>
  match expect "-" s with Some s =>
  match number 2 0 s with Some (mo, s) =>
  match expect "-" s with Some s =>
  match number 2 0 s with Some (d, s) =>
  match expect "T" s with Some s =>
  match number 2 0 s with Some (h, s) =>
  match expect ":" s with Some s =>
  match number 2 0 s with Some (mi, s) =>
  match expect ":" s with Some s =>
  match number 2 0 s with Some (se, s) =>
  match offset s with Some tz => Some (mkDatetime y mo d h mi se tz)
  | None => None end | None => None end | None => None end
  | None => None end | None => None end | None => None end
  | None => None end | None => None end | None => None end
  | None => None end | None => None end
  | None => None
  end.

Definition isoparse (s : string) : result datetime :=
  match parse s with
  | Some d => Ok d
  | None => Raise ValueError
  end.

End Iso.

(* ================================================================== *)
(** ** Vocabulary of the statements *)

(** Some character of [s] matches [RE_SEP]. *)
Fixpoint has_sep (s : string) : bool :=
  match s with
  | EmptyString => false
  | String c t => RE_SEP c || has_sep t
  end.

(** The path [path] followed by a space and the number [seqno]. *)
Definition with_seqno (path : string) (seqno : nat) : string :=
  path ++ " " ++ Str.of_nat seqno.

(** The notes [dups], each alone under [path] with the next number,
    counting from [start]. *)
Fixpoint numbered (path : string) (start : nat) (dups : list Note) : grouping :=
  match dups with
  | [] => []
  | dup :: dups' => (with_seqno path start, [dup]) :: numbered path (S start) dups'
  end.

(** A mapping from path to note, read as a grouping whose groups have
    one note each. *)
Definition singletons (res : Dict.t Note) : grouping :=
  map (fun kn => (fst kn, [snd kn])) res.

(** What can be observed of a note: its fields, the [metadata] field
    followed to the dictionary it names. *)
Definition view (h : heap) (n : Note) : Dict.t json * datetime * datetime * string :=
  (heap_get h (metadata n), created n, modified n, content n).

(** The message of the last [raise] of [dedup_paths]. *)
Definition dedup_failed : exn :=
  RuntimeError "Could not dedup notes successfully, aborting".

(** The message of the [raise] of [_append_seqno]. *)
Definition seqno_exhausted (path : string) : exn :=
  RuntimeError ("could not dedup path: " ++ path).

(** The record of scenario A. *)
Definition buy_milk : Dict.t json :=
  [("content", JStr "Buy milk. Remember eggs too");
   ("created_at", JStr "2023-01-01T10:00:00Z");
   ("modified_at", JStr "2023-01-01T10:00:00Z")].

(** 1 January 2023, 10:00:00, UTC. *)
Definition buy_milk_time : datetime := mkDatetime 2023 1 1 10 0 0 (Some 0%Z).

(** The header written for scenario A. *)
Definition buy_milk_header : Dict.t json :=
  [("created", JStr "2023-01-01T10:00:00+00:00");
   ("modified", JStr "2023-01-01T10:00:00+00:00")].

(** The test that sends [dedup_paths] past its first round: the round
    raised nothing and, after the attempt to build it, [result] is
    empty. *)
Definition first_round_fails (notes : grouping) (s : scheme) : bool :=
  match dedup_schemes s with
  | [] => false
  | fn :: _ =>
      let r := fill fn notes [] 0 in
      match f_raised r, collapse (f_working r) [] with
      | None, Built [] | None, Conflict => true
      | _, _ => false
      end
  end.

(** What the second round fills in, started on the empty dictionary
    with the first round's [working] as its [notes]. *)
Definition second_round (notes : grouping) (s : scheme) : filled :=
  match dedup_schemes s with
  | fn1 :: fn2 :: _ =>
      let r1 := fill fn1 notes [] 0 in
      fill fn2 (f_working r1) [] (f_calls r1)
  | _ => mkFilled [] 0 None
  end.

(** Some group under [k] has two notes or more. *)
Definition colliding (g : grouping) (k : string) : Prop :=
  exists l, In (k, l) g /\ 1 < length l.

(** [K] is what a call of [fn] on a colliding group of [N] gave, after
    [rstrip]. *)
Definition made_by (fn : uniquify_fn) (N : grouping) (K : string) : Prop :=
  exists P dup w0 s,
    colliding N P /\ call fn w0 P dup = Ok s /\ K = Str.rstrip s.

(** Every entry of [W] either sits under a key that a call made, or
    came through untouched from a key in [done]. *)
Definition round_inv (fn : uniquify_fn) (N : grouping) (done : list string) (W : grouping)
  : Prop :=
  forall K l, In (K, l) W -> made_by fn N K \/ (length l <= 1 /\ In K done).

(** Two notes of one second titled [X], and a third titled as the
    first of them would be numbered. *)
Definition stubborn : grouping :=
  let d := mkDatetime 2023 1 1 10 0 0 (Some 0%Z) in
  [("X", [mkNote 0 d d " a"; mkNote 1 d d " b"]);
   ("2023-01-01 10-00-00  X 1", [mkNote 2 d d " c"])].

(** ** Vocabulary of further statements *)

(** The character [c] occurs in [s]. *)
Fixpoint occurs (c : ascii) (s : string) : bool :=
  match s with
  | EmptyString => false
  | String x t => Ascii.eqb x c || occurs c t
  end.

(** [c] is one of the characters a date or a sequence number is
    written with: a digit, a hyphen or a space. *)
Definition stamp_char (c : ascii) : bool :=
  let n := nat_of_ascii c in
  ((48 <=? n) && (n <=? 57)) || Ascii.eqb c "-" || Ascii.eqb c " ".

(** No group of [g] is empty. *)
Definition groups_nonempty (g : grouping) : Prop :=
  Forall (fun kv : string * list Note => snd kv <> []) g.

(** The keys of the first round: the notes of a colliding group each
    under the date and the path, the note of any other group under
    its path. *)
Definition dated (g : grouping) : Dict.t Note :=
  flat_map (fun kv : string * list Note =>
              if 1 <? length (snd kv)
              then map (fun n => (Str.rstrip (_prepend_date (fst kv) n), n)) (snd kv)
              else map (fun n => (fst kv, n)) (snd kv)) g.

(** The notes of [pairs] that came with the path [k], in order. *)
Definition notes_under (k : string) (pairs : list (string * Note)) : list Note :=
  map snd (filter (fun pn => String.eqb (fst pn) k) pairs).

(** The entries of [entry] that [parse_infile] copies into the
    [metadata] of a note. *)
Definition kept_metadata (entry : Dict.t json) : Dict.t json :=
  filter (fun kv => mem_string (fst kv) METADATA_KEYS) entry.

(** The path of the file written for the key [k]. *)
Definition target_of (dir : Path) (k : string) : result Path :=
  with_suffix (joinpath dir k) ".md".

(** The body of the loop of [main] that groups the notes. *)
Definition add_pair (g : grouping) (pn : string * Note) : grouping :=
  dd_append g (fst pn) (snd pn).

(** The calls of [_prepend_date] in the first round: one for each note
    of a colliding group. *)
Definition first_round_calls (g : grouping) : nat :=
  list_sum (map (fun kv : string * list Note =>
                   if 1 <? length (snd kv) then length (snd kv) else 0) g).


(** The character [c] occurs in no key of [g]. *)
Definition free_of (c : ascii) (g : grouping) : Prop :=
  forall k, In k (Dict.keys g) -> occurs c k = false.

(** The pair [pn] is what [parse_infile] yields for [entry], and [h]
    holds the dictionary of its note. *)
Definition read_from (isoparse : string -> result datetime) (h : heap)
    (entry : Dict.t json) (pn : string * Note) : Prop :=
  exists text cs ms,
    Dict.get entry "content" = Some (JStr text)
    /\ Dict.get entry "created_at" = Some (JStr cs)
    /\ isoparse cs = Ok (created (snd pn))
    /\ Dict.get entry "modified_at" = Some (JStr ms)
    /\ isoparse ms = Ok (modified (snd pn))
    /\ fst pn = Str.translate TITLE_TO_FILENAME (fst (split_title text))
    /\ content (snd pn) = snd (split_title text)
    /\ metadata (snd pn) < length h
    /\ heap_get h (metadata (snd pn)) = kept_metadata entry.



(** The notes [dups], each under [path] with the next number,
    counting from [start]. *)
Fixpoint numbered_notes (path : string) (start : nat) (dups : list Note) : Dict.t Note :=
  match dups with
  | [] => []
  | dup :: dups' => (with_seqno path start, dup) :: numbered_notes path (S start) dups'
  end.

(** The key of the first round for a note created at [t]. *)
Definition dated_key (t : datetime) (path : string) : string :=
  Str.rstrip (Datetime.format_date t ++ " " ++ path).

(** The key of the second round of the datetime scheme for a note
    created at [t]. *)
Definition stamped_key (t : datetime) (path : string) : string :=
  Str.rstrip (Datetime.format_datetime t ++ " "
              ++ Str.removeprefix (dated_key t path) (Datetime.format_date t)).

(* ================================================================== *)
(** * Properties *)

Unset Implicit Arguments.

(** ** Strings *)

Module StrFacts.
Import Str.

Lemma app_assoc (a b c : string) : (a ++ b) ++ c = a ++ (b ++ c).
Proof. induction a as [|x a IH]; simpl; [reflexivity | now rewrite IH]. Qed.

Lemma app_nil_r (a : string) : a ++ "" = a.
Proof. induction a as [|x a IH]; simpl; [reflexivity | now rewrite IH]. Qed.

Lemma length_app (a b : string) :
  String.length (a ++ b) = String.length a + String.length b.
Proof. induction a as [|x a IH]; simpl; [reflexivity | now rewrite IH]. Qed.

Lemma app_inv_head (a b c : string) : a ++ b = a ++ c -> b = c.
Proof.
  induction a as [|x a IH]; simpl; intros H; [assumption|].
  injection H as H. now apply IH.
Qed.

Lemma rstrip_ends (s : string) : ends_nonspace s = true -> rstrip s = s.
Proof.
  induction s as [|c t IH]; [reflexivity|].
  destruct t as [|c' t'].
  - simpl. intros H. apply negb_true_iff in H. now rewrite H.
  - intros H. change (ends_nonspace (String c' t') = true) in H.
    specialize (IH H). change (rstrip (String c (String c' t')))
      with (match rstrip (String c' t') with
            | EmptyString => if isspace c then EmptyString else String c EmptyString
            | r => String c r
            end).
    now rewrite IH.
Qed.

Lemma ends_nonspace_app (a b : string) :
  ends_nonspace b = true -> ends_nonspace (a ++ b) = true.
Proof.
  intros H. induction a as [|c a IH]; [exact H|].
  simpl. destruct (a ++ b) eqn:E; [|exact IH].
  simpl in IH. discriminate.
Qed.

Lemma rstrip_app_ends (a b : string) :
  ends_nonspace a = true -> rstrip (a ++ b) = a ++ rstrip b.
Proof.
  induction a as [|c a IH]; [discriminate|].
  destruct a as [|c' a'].
  - simpl. intros H. apply negb_true_iff in H.
    destruct (rstrip b); [now rewrite H | reflexivity].
  - intros H. change (ends_nonspace (String c' a') = true) in H.
    specialize (IH H).
    change (rstrip (String c (String c' a' ++ b)) = String c (String c' a' ++ rstrip b)).
    change (rstrip (String c (String c' a' ++ b)))
      with (match rstrip (String c' a' ++ b) with
            | EmptyString => if isspace c then EmptyString else String c EmptyString
            | r => String c r
            end).
    rewrite IH. reflexivity.
Qed.

(** What [rstrip] returns has no whitespace at its end. *)
Lemma rstrip_result (s : string) :
  rstrip s = "" \/ ends_nonspace (rstrip s) = true.
Proof.
  induction s as [|c t IH]; [now left|].
  simpl. destruct (rstrip t) as [|c' r] eqn:E.
  - destruct (isspace c) eqn:Hc; [now left|].
    right. simpl. now rewrite Hc.
  - right. destruct IH as [IH|IH]; [discriminate|].
    exact IH.
Qed.

Lemma ends_nonspace_length (s : string) :
  ends_nonspace s = true -> 0 < String.length s.
Proof. destruct s; [discriminate | simpl; lia]. Qed.

Lemma strip_prefix_app (p s : string) : strip_prefix p (p ++ s) = Some s.
Proof.
  induction p as [|c p IH]; simpl; [now destruct s|].
  now rewrite Ascii.eqb_refl.
Qed.

Lemma strip_prefix_some (p s r : string) : strip_prefix p s = Some r -> s = p ++ r.
Proof.
  revert s. induction p as [|c p IH]; intros s; simpl.
  - destruct s; intros [= <-]; reflexivity.
  - destruct s as [|c' s]; [discriminate|].
    destruct (Ascii.eqb_spec c c') as [->|]; [|discriminate].
    intros H. simpl. f_equal. now apply IH.
Qed.

Lemma removeprefix_app (p s : string) : removeprefix (p ++ s) p = s.
Proof. unfold removeprefix. now rewrite strip_prefix_app. Qed.

(** Either the prefix is there and taken off, or nothing changes. *)
Lemma removeprefix_cases (s p : string) :
  (s = p ++ removeprefix s p) \/ removeprefix s p = s.
Proof.
  unfold removeprefix. destruct (strip_prefix p s) eqn:E.
  - left. now apply strip_prefix_some.
  - now right.
Qed.

(** *** Decimal numerals *)

Lemma uint_digits (d : Decimal.uint) :
  all_digits (NilEmpty.string_of_uint d) = true.
Proof. induction d; simpl; auto. Qed.

Lemma digit_not_space (c : ascii) :
  (48 <=? nat_of_ascii c) && (nat_of_ascii c <=? 57) = true -> isspace c = false.
Proof.
  unfold isspace. intros H. apply andb_true_iff in H as [H1 H2].
  apply Nat.leb_le in H1. apply Nat.leb_le in H2.
  repeat (apply orb_false_iff; split);
    try (apply andb_false_iff; first [left; apply Nat.leb_gt; lia | right; apply Nat.leb_gt; lia]);
    apply Nat.eqb_neq; lia.
Qed.

Lemma digits_end (s : string) :
  all_digits s = true -> s <> "" -> ends_nonspace s = true.
Proof.
  induction s as [|c t IH]; [congruence|].
  intros H _. simpl in H. apply andb_true_iff in H as [Hc Ht].
  destruct t as [|c' t'].
  - simpl. now rewrite (digit_not_space _ Hc).
  - change (ends_nonspace (String c' t') = true). apply IH; [exact Ht | discriminate].
Qed.

Lemma of_nat_nonempty (n : nat) : of_nat n <> "".
Proof.
  unfold of_nat. intros H.
  assert (E : Nat.to_uint n = Decimal.Nil)
    by (destruct (Nat.to_uint n); simpl in H; try discriminate; reflexivity).
  assert (E0 : n = 0)
    by (rewrite <- (DecimalNat.Unsigned.of_to n), E; reflexivity).
  subst n. discriminate E.
Qed.

Lemma of_nat_inj (n m : nat) : of_nat n = of_nat m -> n = m.
Proof.
  unfold of_nat. intros H. apply DecimalNat.Unsigned.to_uint_inj.
  assert (E : Some (Nat.to_uint n) = Some (Nat.to_uint m))
    by (rewrite <- (NilEmpty.usu (Nat.to_uint n)), <- (NilEmpty.usu (Nat.to_uint m)), H;
        reflexivity).
  now injection E.
Qed.

Lemma of_nat_ends (n : nat) : ends_nonspace (of_nat n) = true.
Proof.
  apply digits_end; [apply uint_digits | apply of_nat_nonempty].
Qed.

Lemma zfill_ends (w n : nat) : ends_nonspace (zfill w n) = true.
Proof. unfold zfill. apply ends_nonspace_app, of_nat_ends. Qed.

End StrFacts.

Module DatetimeFacts.
Import Datetime.

Lemma format_date_ends (d : datetime) : Str.ends_nonspace (format_date d) = true.
Proof.
  unfold format_date.
  repeat first [apply StrFacts.zfill_ends | apply StrFacts.ends_nonspace_app].
Qed.

Lemma format_datetime_ends (d : datetime) : Str.ends_nonspace (format_datetime d) = true.
Proof.
  unfold format_datetime, format_time.
  repeat first [apply StrFacts.zfill_ends | apply StrFacts.ends_nonspace_app].
Qed.

Lemma format_date_length (d : datetime) : 0 < String.length (format_date d).
Proof. apply StrFacts.ends_nonspace_length, format_date_ends. Qed.

Lemma format_datetime_length (d : datetime) :
  String.length (format_date d) < String.length (format_datetime d).
Proof.
  unfold format_datetime. rewrite StrFacts.length_app. simpl. lia.
Qed.

End DatetimeFacts.


(** ** Dictionaries *)

Module DictFacts.
Section DictFacts.
Variable V : Type.
Implicit Types (d : Dict.t V) (k : string) (v : V).

Lemma get_set_same d k v : Dict.get (Dict.set d k v) k = Some v.
Proof.
  induction d as [|[k' v'] d IH]; simpl.
  - now rewrite String.eqb_refl.
  - destruct (String.eqb k' k) eqn:E; simpl; rewrite E; [reflexivity | exact IH].
Qed.

Lemma get_set_other d k k' v : k <> k' -> Dict.get (Dict.set d k v) k' = Dict.get d k'.
Proof.
  intros Hk. induction d as [|[k0 v0] d IH]; simpl.
  - destruct (String.eqb_spec k k'); [contradiction | reflexivity].
  - destruct (String.eqb_spec k0 k) as [->|]; simpl.
    + destruct (String.eqb_spec k k'); [contradiction | reflexivity].
    + destruct (String.eqb_spec k0 k'); [reflexivity | exact IH].
Qed.

Lemma get_none d k : Dict.get d k = None <-> ~ In k (Dict.keys d).
Proof.
  induction d as [|[k' v'] d IH]; simpl.
  - tauto.
  - destruct (String.eqb_spec k' k) as [->|Hn].
    + split; [discriminate | intros H; exfalso; apply H; now left].
    + rewrite IH. split; [intros H [E|I]; [congruence | contradiction] | tauto].
Qed.

Lemma get_in d k v : Dict.get d k = Some v -> In (k, v) d.
Proof.
  induction d as [|[k' v'] d IH]; simpl; [discriminate|].
  destruct (String.eqb_spec k' k) as [->|Hn].
  - intros [= ->]. now left.
  - intros H. right. now apply IH.
Qed.

Lemma in_get d k v : Dict.wf d -> In (k, v) d -> Dict.get d k = Some v.
Proof.
  unfold Dict.wf. induction d as [|[k' v'] d IH]; simpl; [tauto|].
  intros Hnd [E|I].
  - injection E as -> ->. now rewrite String.eqb_refl.
  - inversion Hnd as [|? ? Hni Hnd']; subst.
    destruct (String.eqb_spec k' k) as [->|Hn].
    + exfalso. apply Hni. change k with (fst (k, v)). now apply in_map.
    + now apply IH.
Qed.

Lemma set_fresh d k v : ~ In k (Dict.keys d) -> Dict.set d k v = (d ++ [(k, v)])%list.
Proof.
  induction d as [|[k' v'] d IH]; simpl; [reflexivity|].
  intros H. destruct (String.eqb_spec k' k) as [->|Hn]; [tauto|].
  rewrite IH; tauto.
Qed.

Lemma mem_true d k : Dict.mem k d = true <-> In k (Dict.keys d).
Proof.
  unfold Dict.mem. destruct (Dict.get d k) eqn:E.
  - split; [intros _ | reflexivity].
    apply get_in in E. change k with (fst (k, v)). now apply in_map.
  - split; [discriminate|]. intros H. now apply get_none in E.
Qed.

Lemma mem_false d k : Dict.mem k d = false <-> ~ In k (Dict.keys d).
Proof.
  rewrite <- mem_true. destruct (Dict.mem k d); split; congruence.
Qed.

End DictFacts.
End DictFacts.

(** ** The title of a note *)

Module TitleFacts.

Lemma first_match_some (s a b : string) :
  first_match s = Some (a, b) ->
  exists c, s = a ++ String c b /\ RE_SEP c = true /\ has_sep a = false.
Proof.
  revert a b. induction s as [|x s IH]; intros a b; simpl; [discriminate|].
  destruct (RE_SEP x) eqn:Hx.
  - intros [= <- <-]. exists x. auto.
  - destruct (first_match s) as [[a' b']|]; [|discriminate].
    intros [= <- <-]. destruct (IH a' b' eq_refl) as (c & -> & Hc & Ha).
    exists c. simpl. rewrite Hx, Ha. auto.
Qed.

Lemma first_match_none (s : string) : first_match s = None <-> has_sep s = false.
Proof.
  induction s as [|x s IH]; simpl; [tauto|].
  destruct (RE_SEP x); simpl.
  - split; discriminate.
  - destruct (first_match s) as [[a b]|].
    + split; [discriminate|]. intros H. apply IH in H. discriminate.
    + split; [intros _; now apply IH | reflexivity].
Qed.

Lemma first_match_at (before after : string) (sep : ascii) :
  has_sep before = false -> RE_SEP sep = true ->
  first_match (before ++ String sep after) = Some (before, after).
Proof.
  intros Hb Hs. induction before as [|x b IH]; simpl.
  - now rewrite Hs.
  - simpl in Hb. apply orb_false_iff in Hb as [Hx Hb]. rewrite Hx, (IH Hb). reflexivity.
Qed.

Lemma has_sep_substring (a b : string) (c : ascii) (n : nat) :
  RE_SEP c = true -> String.length a < n ->
  has_sep (substring 0 n (a ++ String c b)) = true.
Proof.
  intros Hc. revert n. induction a as [|x a IH]; intros n Hn.
  - destruct n; [simpl in Hn; lia|]. simpl. now rewrite Hc.
  - destruct n; [simpl in Hn; lia|]. simpl. rewrite IH; [apply orb_true_r | simpl in Hn; lia].
Qed.

Lemma split_title_no_sep (s : string) : has_sep s = false -> split_title s = ("", s).
Proof.
  intros H. apply first_match_none in H. unfold split_title, re_split. now rewrite H.
Qed.

Lemma split_title_at (before after : string) (sep : ascii) :
  has_sep before = false -> RE_SEP sep = true ->
  split_title (before ++ String sep after)
  = if String.length before <? MAX_TITLE_LEN then (before, after)
    else ("", before ++ String sep after).
Proof.
  intros Hb Hs. unfold split_title, re_split. now rewrite (first_match_at _ after _ Hb Hs).
Qed.

End TitleFacts.

Ltac inv_bind H :=
  match type of H with
  | bind ?r _ = Ok _ =>
      let E := fresh "E" in
      destruct r eqn:E; simpl in H; [|discriminate H]
  end.

Lemma parse_entry_title isoparse h entry text path note h' :
  Dict.get entry "content" = Some (JStr text) ->
  parse_entry isoparse h entry = Ok (path, note, h') ->
  path = Str.translate TITLE_TO_FILENAME (fst (split_title text))
  /\ content note = snd (split_title text).
Proof.
  intros Hc H. unfold parse_entry, getitem in H. rewrite Hc in H. simpl in H.
  destruct (split_title text) as [title rest]. simpl.
  rewrite DictFacts.get_set_same in H.
  rewrite DictFacts.get_set_other in H by discriminate.
  rewrite DictFacts.get_set_other in H by discriminate.
  repeat inv_bind H.
  injection H as <- <- <-. split; reflexivity.
Qed.

(* ================================================================== *)
(** ** The title extractor *)

(** C3.  For every content string [text], let [key] be the path that
    [parse_infile] yields and [rest] the content it stores.  If a period
    or a newline occurs and the text before the first one is shorter
    than 40 characters, [key] is that text after [TITLE_TO_FILENAME] and
    [rest] is what follows the separator.  Otherwise — the text before
    the first separator has 40 characters or more, or there is no
    separator at all, in particular when none occurs among the first
    40 characters — [key] is empty and [rest] is [text]. *)
Theorem title_extractor_spec : forall text : string,
  let key := Str.translate TITLE_TO_FILENAME (fst (split_title text)) in
  let rest := snd (split_title text) in
  (forall isoparse h entry path note h',
      Dict.get entry "content" = Some (JStr text) ->
      parse_entry isoparse h entry = Ok (path, note, h') ->
      path = key /\ content note = rest)
  /\ (forall before sep after,
        text = before ++ String sep after ->
        has_sep before = false -> RE_SEP sep = true ->
        (String.length before < 40 ->
           key = Str.translate TITLE_TO_FILENAME before /\ rest = after)
        /\ (40 <= String.length before -> key = "" /\ rest = text))
  /\ (has_sep text = false -> key = "" /\ rest = text)
  /\ (has_sep (substring 0 40 text) = false -> key = "" /\ rest = text).
Proof.
  intros text key rest. subst key rest. repeat split.
  - eapply parse_entry_title in H0; [|eassumption]. tauto.
  - eapply parse_entry_title in H0; [|eassumption]. tauto.
  - subst text. rewrite TitleFacts.split_title_at by assumption.
    unfold MAX_TITLE_LEN. apply Nat.ltb_lt in H2. now rewrite H2.
  - subst text. rewrite TitleFacts.split_title_at by assumption.
    unfold MAX_TITLE_LEN. apply Nat.ltb_lt in H2. now rewrite H2.
  - subst text. rewrite TitleFacts.split_title_at by assumption.
    unfold MAX_TITLE_LEN. apply Nat.ltb_ge in H2. now rewrite H2.
  - subst text. rewrite TitleFacts.split_title_at by assumption.
    unfold MAX_TITLE_LEN. apply Nat.ltb_ge in H2. now rewrite H2.
  - now rewrite TitleFacts.split_title_no_sep.
  - now rewrite TitleFacts.split_title_no_sep.
  - destruct (first_match text) as [[a b]|] eqn:E.
    + destruct (TitleFacts.first_match_some _ _ _ E) as (c & -> & Hc & Ha).
      rewrite TitleFacts.split_title_at by assumption.
      destruct (String.length a <? MAX_TITLE_LEN) eqn:L; [|reflexivity].
      apply Nat.ltb_lt in L. unfold MAX_TITLE_LEN in L.
      rewrite (TitleFacts.has_sep_substring a b c 40 Hc L) in H. discriminate.
    + apply TitleFacts.first_match_none in E. now rewrite TitleFacts.split_title_no_sep.
  - destruct (first_match text) as [[a b]|] eqn:E.
    + destruct (TitleFacts.first_match_some _ _ _ E) as (c & -> & Hc & Ha).
      rewrite TitleFacts.split_title_at by assumption.
      destruct (String.length a <? MAX_TITLE_LEN) eqn:L; [|reflexivity].
      apply Nat.ltb_lt in L. unfold MAX_TITLE_LEN in L.
      rewrite (TitleFacts.has_sep_substring a b c 40 Hc L) in H. discriminate.
    + apply TitleFacts.first_match_none in E. now rewrite TitleFacts.split_title_no_sep.
Qed.

(** The title of ["a/b: c. d"] is ["a_b- c"], and a text of 41 letters
    before its period has none. *)
Lemma title_extractor_witness :
  (Str.translate TITLE_TO_FILENAME (fst (split_title "a/b: c. d")) = "a_b- c"
   /\ snd (split_title "a/b: c. d") = " d")
  /\ (Str.translate TITLE_TO_FILENAME
        (fst (split_title "abcdefghijklmnopqrstuvwxyzabcdefghijklmno. d")) = ""
      /\ snd (split_title "abcdefghijklmnopqrstuvwxyzabcdefghijklmno. d")
         = "abcdefghijklmnopqrstuvwxyzabcdefghijklmno. d").
Proof.
  split.
  - destruct (title_extractor_spec "a/b: c. d") as (_ & H & _).
    destruct (H "a/b: c" "."%char " d" eq_refl eq_refl eq_refl) as [H1 _].
    apply H1. simpl. lia.
  - destruct (title_extractor_spec "abcdefghijklmnopqrstuvwxyzabcdefghijklmno. d")
      as (_ & _ & _ & H).
    apply H. reflexivity.
Defined.

(* ================================================================== *)
(** ** The strategies that prepend a date *)

(** C6.  [_prepend_datetime] returns the creation time of the note as
    [YYYY-MM-DD HH-MM-SS], a space, and the path with a leading
    [YYYY-MM-DD] of the creation date taken off when it is there.
    Applied to what [_prepend_date] returns, the result starts with the
    full timestamp and holds the date once: it is the timestamp, the
    space, and what stood behind the date (a space and the path), not
    the timestamp followed by the date. *)
Theorem prepend_datetime_spec : forall (path : string) (note : Note),
  let date := Datetime.format_date (created note) in
  let stamp := Datetime.format_datetime (created note) in
  stamp = date ++ " " ++ Datetime.format_time (created note)
  /\ _prepend_datetime path note = stamp ++ " " ++ Str.removeprefix path date
  /\ (forall rest, path = date ++ rest -> _prepend_datetime path note = stamp ++ " " ++ rest)
  /\ (Str.strip_prefix date path = None -> _prepend_datetime path note = stamp ++ " " ++ path)
  /\ _prepend_datetime (_prepend_date path note) note = stamp ++ " " ++ (" " ++ path)
  /\ _prepend_datetime (_prepend_date path note) note <> stamp ++ " " ++ (date ++ " " ++ path)
  /\ _prepend_datetime (Str.rstrip (_prepend_date path note)) note
     = stamp ++ " " ++ Str.rstrip (" " ++ path).
Proof.
  intros path note date stamp. subst date stamp.
  unfold _prepend_datetime, _prepend_date.
  split; [reflexivity|]. split; [reflexivity|]. split; [|split; [|split; [|split]]].
  - intros rest ->. now rewrite StrFacts.removeprefix_app.
  - intros H. unfold Str.removeprefix. now rewrite H.
  - now rewrite StrFacts.removeprefix_app.
  - rewrite StrFacts.removeprefix_app. intros H.
    apply StrFacts.app_inv_head in H. apply (f_equal String.length) in H.
    simpl in H. rewrite StrFacts.length_app in H. simpl in H.
    pose proof (DatetimeFacts.format_date_length (created note)). lia.
  - rewrite StrFacts.rstrip_app_ends by apply DatetimeFacts.format_date_ends.
    now rewrite StrFacts.removeprefix_app.
Qed.

(** On a note of 1 January 2023, 10:00:00. *)
Lemma prepend_datetime_witness :
  _prepend_datetime "2023-01-01 Meeting notes"
    (mkNote 0 (mkDatetime 2023 1 1 10 0 0 None) (mkDatetime 2023 1 1 10 0 0 None) "")
  = "2023-01-01 10-00-00  Meeting notes".
Proof.
  destruct (prepend_datetime_spec "2023-01-01 Meeting notes"
              (mkNote 0 (mkDatetime 2023 1 1 10 0 0 None) (mkDatetime 2023 1 1 10 0 0 None) ""))
    as (_ & _ & H & _).
  apply (H " Meeting notes"). reflexivity.
Defined.

(* ================================================================== *)
(** ** The empty grouping *)

(** C10.  Called with the empty grouping, [dedup_paths] does not return
    the empty mapping: in every round nothing is filled in, the
    collapse builds the empty [result], which the test [if result]
    takes for a failed round, and after the last strategy the call
    raises "Could not dedup notes successfully, aborting". *)
Theorem dedup_paths_empty : forall s : scheme,
  returned (dedup_paths [] s) = Raise dedup_failed
  /\ (forall fn n, fill fn [] [] n = mkFilled [] n None)
  /\ collapse [] [] = Built []
  /\ (forall fn fns notes working n,
        rounds (fn :: fns) (mkStore [] []) notes working n
        = rounds fns (mkStore [] []) working notes n)
  /\ calls (dedup_paths [] s) = 0.
Proof.
  intros s. split; [now destruct s|]. split; [reflexivity|]. split; [reflexivity|]. split.
  - intros fn fns notes working n. now destruct notes, working.
  - now destruct s.
Qed.

(* ================================================================== *)
(** ** Groupings and rounds *)

Module GroupFacts.

Lemma all_notes_cons (k : string) (l : list Note) (g : grouping) :
  all_notes ((k, l) :: g) = (l ++ all_notes g)%list.
Proof. reflexivity. Qed.

Lemma all_notes_app (g g' : grouping) :
  all_notes (g ++ g')%list = (all_notes g ++ all_notes g')%list.
Proof. unfold all_notes, Dict.values. now rewrite map_app, concat_app. Qed.

Lemma all_notes_singletons (res : Dict.t Note) :
  all_notes (singletons res) = Dict.values res.
Proof.
  induction res as [|[k n] res IH]; [reflexivity|].
  simpl. rewrite all_notes_cons, IH. reflexivity.
Qed.

Lemma keys_singletons (res : Dict.t Note) : Dict.keys (singletons res) = Dict.keys res.
Proof. unfold singletons, Dict.keys. rewrite map_map. reflexivity. Qed.

Lemma dd_extend_fresh (d : grouping) (k : string) (vs : list Note) :
  ~ In k (Dict.keys d) -> dd_extend d k vs = (d ++ [(k, vs)])%list.
Proof.
  induction d as [|[k' l] d IH]; simpl; [reflexivity|].
  intros H. destruct (String.eqb_spec k' k) as [->|Hn]; [tauto|].
  rewrite IH; tauto.
Qed.

(** The keys after [d[k].extend(vs)]: a new key goes last. *)
Lemma dd_extend_keys (d : grouping) (k : string) (vs : list Note) :
  Dict.keys (dd_extend d k vs)
  = if Dict.mem k d then Dict.keys d else (Dict.keys d ++ [k])%list.
Proof.
  induction d as [|[k' l] d IH]; [reflexivity|].
  unfold Dict.mem in *. simpl.
  destruct (String.eqb_spec k' k) as [->|Hn]; [reflexivity|].
  simpl. rewrite IH. now destruct (Dict.get d k).
Qed.

Lemma dd_extend_wf (d : grouping) (k : string) (vs : list Note) :
  Dict.wf d -> Dict.wf (dd_extend d k vs).
Proof.
  unfold Dict.wf. intros H. rewrite dd_extend_keys.
  destruct (Dict.mem k d) eqn:E; [exact H|].
  apply DictFacts.mem_false in E.
  apply NoDup_app; [exact H | repeat constructor; tauto |].
  intros x Hx [<-|[]]. contradiction.
Qed.

Lemma dd_extend_notes (d : grouping) (k : string) (vs : list Note) :
  Permutation (all_notes (dd_extend d k vs)) (all_notes d ++ vs).
Proof.
  induction d as [|[k' l] d IH]; simpl.
  - rewrite all_notes_cons. simpl. now rewrite List.app_nil_r.
  - destruct (String.eqb_spec k' k) as [->|Hn]; rewrite !all_notes_cons.
    + rewrite <- !List.app_assoc. apply Permutation_app_head, Permutation_app_comm.
    + rewrite <- List.app_assoc. now apply Permutation_app_head.
Qed.

(** *** Filling [working] *)

Lemma fill_dups_wf fn path dups w n :
  Dict.wf w -> Dict.wf (f_working (fill_dups fn path dups w n)).
Proof.
  revert w n. induction dups as [|dup dups IH]; intros w n H; simpl; [exact H|].
  destruct (call fn w path dup); simpl; [|exact H].
  apply IH, dd_extend_wf, H.
Qed.

Lemma fill_wf fn notes w n :
  Dict.wf w -> Dict.wf (f_working (fill fn notes w n)).
Proof.
  revert w n. induction notes as [|[path dups] notes IH]; intros w n H; simpl; [exact H|].
  destruct (1 <? length dups).
  - pose proof (fill_dups_wf fn path dups w n H) as H'.
    destruct (f_raised (fill_dups fn path dups w n)); [exact H' | now apply IH].
  - apply IH, dd_extend_wf, H.
Qed.

Lemma fill_dups_notes fn path dups w n :
  f_raised (fill_dups fn path dups w n) = None ->
  Permutation (all_notes (f_working (fill_dups fn path dups w n))) (all_notes w ++ dups).
Proof.
  revert w n. induction dups as [|dup dups IH]; intros w n; simpl.
  - intros _. now rewrite List.app_nil_r.
  - destruct (call fn w path dup); simpl; [|discriminate].
    intros H. rewrite (IH _ _ H). unfold dd_append. rewrite dd_extend_notes.
    rewrite <- List.app_assoc. reflexivity.
Qed.

Lemma fill_notes fn notes w n :
  f_raised (fill fn notes w n) = None ->
  Permutation (all_notes (f_working (fill fn notes w n))) (all_notes w ++ all_notes notes).
Proof.
  revert w n. induction notes as [|[path dups] notes IH]; intros w n; simpl.
  - intros _. unfold all_notes at 3. simpl. now rewrite List.app_nil_r.
  - rewrite all_notes_cons. destruct (1 <? length dups).
    + destruct (f_raised (fill_dups fn path dups w n)) eqn:E.
      * intros H. congruence.
      * intros H. rewrite (IH _ _ H), (fill_dups_notes _ _ _ _ _ E).
        now rewrite <- List.app_assoc.
    + intros H. rewrite (IH _ _ H), dd_extend_notes. now rewrite <- List.app_assoc.
Qed.

(** Groups of at most one note pass through under their own key. *)
Lemma fill_passthrough fn (g w : grouping) n :
  Forall (fun kv => length (snd kv) <= 1) g ->
  NoDup (Dict.keys w ++ Dict.keys g) ->
  fill fn g w n = mkFilled (w ++ g)%list n None.
Proof.
  revert w. induction g as [|[k l] g IH]; intros w Hs Hnd; simpl.
  - now rewrite List.app_nil_r.
  - inversion Hs as [|? ? Hl Hs']; subst. simpl in Hl.
    assert (E : (1 <? length l) = false) by (apply Nat.ltb_ge; lia).
    rewrite E. simpl in Hnd.
    rewrite dd_extend_fresh by (apply NoDup_remove_2 in Hnd; intros I; apply Hnd, in_or_app; now left).
    rewrite IH; [now rewrite <- List.app_assoc | exact Hs' |].
    unfold Dict.keys in *. rewrite map_app, <- List.app_assoc. exact Hnd.
Qed.

(** *** Building [result] *)

Lemma collapse_built (w : grouping) (acc res : Dict.t Note) :
  collapse w acc = Built res ->
  NoDup (Dict.keys acc ++ Dict.keys w) ->
  exists res', res = (acc ++ res')%list /\ w = singletons res'.
Proof.
  revert acc. induction w as [|[k l] w IH]; intros acc; simpl.
  - intros [= <-] _. exists []. now rewrite List.app_nil_r.
  - destruct (1 <? length l) eqn:E; [discriminate|].
    destruct l as [|n l]; [discriminate|].
    apply Nat.ltb_ge in E. simpl in E. assert (l = []) by (destruct l; [reflexivity | simpl in E; lia]).
    subst l. intros H Hnd.
    rewrite DictFacts.set_fresh in H
      by (apply NoDup_remove_2 in Hnd; intros I; apply Hnd, in_or_app; now left).
    apply IH in H.
    + destruct H as (res' & -> & ->). exists ((k, n) :: res').
      now rewrite <- List.app_assoc.
    + unfold Dict.keys in *. rewrite map_app, <- List.app_assoc. exact Hnd.
Qed.

Lemma collapse_singletons (res acc : Dict.t Note) :
  NoDup (Dict.keys acc ++ Dict.keys res) ->
  collapse (singletons res) acc = Built (acc ++ res)%list.
Proof.
  revert acc. induction res as [|[k n] res IH]; intros acc Hnd; simpl.
  - now rewrite List.app_nil_r.
  - rewrite DictFacts.set_fresh
      by (apply NoDup_remove_2 in Hnd; intros I; apply Hnd, in_or_app; now left).
    rewrite IH; [now rewrite <- List.app_assoc|].
    unfold Dict.keys in *. rewrite map_app, <- List.app_assoc. exact Hnd.
Qed.

(** *** The store *)

Lemma rd_wr_same s o g : rd (wr s o g) o = g.
Proof. now destruct o. Qed.

Lemma rd_wr_other s o o' g : o <> o' -> rd (wr s o g) o' = rd s o'.
Proof. destruct o, o'; intros H; try reflexivity; congruence. Qed.

(** *** All rounds *)

(** Whatever [rounds] returns holds each note of [notes] once, under
    keys that differ. *)
Lemma rounds_returns fns s notes working n res :
  notes <> working -> rd s working = [] ->
  returned (rounds fns s notes working n) = Ok res ->
  NoDup (Dict.keys res) /\ Permutation (Dict.values res) (all_notes (rd s notes)).
Proof.
  revert s notes working n res.
  induction fns as [|fn fns IH]; intros s notes working n res Hneq Hw; simpl; [discriminate|].
  rewrite Hw.
  pose proof (fill_wf fn (rd s notes) [] n (NoDup_nil _)) as Hwf.
  pose proof (fill_notes fn (rd s notes) [] n) as Hperm.
  destruct (f_raised (fill fn (rd s notes) [] n)); [discriminate|].
  specialize (Hperm eq_refl). simpl in Hperm.
  set (W := f_working (fill fn (rd s notes) [] n)) in *.
  assert (Hrec : forall res0,
             returned (rounds fns (wr (wr s working W) notes []) working notes
                         (f_calls (fill fn (rd s notes) [] n))) = Ok res0 ->
             NoDup (Dict.keys res0) /\ Permutation (Dict.values res0) (all_notes (rd s notes))).
  { intros res0 H. apply IH in H; [|congruence|apply rd_wr_same].
    rewrite rd_wr_other, rd_wr_same in H by congruence.
    destruct H as [H1 H2]. split; [exact H1|]. now rewrite H2. }
  destruct (collapse W []) as [result| |] eqn:Ec; [|apply Hrec|discriminate].
  destruct result as [|item result]; [apply Hrec|].
  simpl. intros [= <-].
  apply collapse_built in Ec; [|exact Hwf].
  destruct Ec as (res' & -> & EW). simpl.
  split.
  - rewrite <- keys_singletons, <- EW. exact Hwf.
  - rewrite <- all_notes_singletons, <- EW. exact Hperm.
Qed.

End GroupFacts.

(* ================================================================== *)
(** ** The result of [dedup_paths] *)

(** C1.  Whenever [dedup_paths] returns a mapping, for either scheme
    and any grouping, the mapping pairs the notes of the grouping with
    its keys one to one: its keys differ from one another, its notes
    are the notes of the grouping, each as often as it was passed in,
    and it has as many keys as the grouping has notes. *)
Theorem dedup_paths_bijection : forall (notes : grouping) (s : scheme) (res : Dict.t Note),
  returned (dedup_paths notes s) = Ok res ->
  NoDup (Dict.keys res)
  /\ Permutation (Dict.values res) (all_notes notes)
  /\ length (Dict.keys res) = length (all_notes notes).
Proof.
  intros notes s res H. unfold dedup_paths in H.
  apply GroupFacts.rounds_returns in H; [|discriminate|reflexivity].
  simpl in H. destruct H as [H1 H2]. repeat split; [exact H1 | exact H2 |].
  unfold Dict.keys. rewrite length_map, <- (length_map snd).
  now apply Permutation_length.
Qed.

(** Three notes of the same second under one title. *)
Lemma dedup_paths_bijection_witness :
  let n := mkNote 0 (mkDatetime 2023 1 1 10 0 0 None) (mkDatetime 2023 1 1 10 0 0 None) "" in
  NoDup ["2023-01-01 10-00-00  T 1"; "2023-01-01 10-00-00  T 2"; "2023-01-01 10-00-00  T 3"]
  /\ Permutation [n; n; n] [n; n; n]
  /\ 3 = 3.
Proof.
  intros n.
  exact (dedup_paths_bijection [("T", [n; n; n])] datetime_scheme
           [("2023-01-01 10-00-00  T 1", n); ("2023-01-01 10-00-00  T 2", n);
            ("2023-01-01 10-00-00  T 3", n)] eq_refl).
Defined.

(* ================================================================== *)
(** ** Groupings without collisions *)

Lemma singleton_groups (g : grouping) :
  Forall (fun kv => length (snd kv) = 1) g -> exists res, g = singletons res.
Proof.
  induction g as [|[k l] g IH]; intros H.
  - now exists [].
  - inversion H as [|? ? Hl H']; subst. destruct (IH H') as [res ->].
    destruct l as [|n [|? ?]]; try discriminate.
    now exists ((k, n) :: res).
Qed.

(** C7, as stated, fails on the grouping without keys: every key of it
    (there is none) has exactly one note, yet nothing is returned. *)
Lemma dedup_paths_singletons_empty :
  Forall (fun kv : string * list Note => length (snd kv) = 1) []
  /\ returned (dedup_paths [] datetime_scheme) = Raise dedup_failed
  /\ returned (dedup_paths [] seqno_scheme) = Raise dedup_failed.
Proof. repeat split; constructor. Qed.

(** C7, amended.  For every grouping with at least one key in which
    every key has exactly one note, [dedup_paths] calls no uniquify
    function and returns the grouping as it is, each key mapped to its
    note; the caller's dictionary is left as it was. *)
Theorem dedup_paths_singletons : forall (notes : grouping) (s : scheme),
  notes <> [] -> Dict.wf notes ->
  Forall (fun kv => length (snd kv) = 1) notes ->
  exists res,
    notes = singletons res
    /\ dedup_paths notes s = mkOutcome (Ok res) notes 0.
Proof.
  intros notes s Hne Hwf Hs.
  destruct (singleton_groups notes Hs) as [res ->]. exists res. split; [reflexivity|].
  assert (Hle : Forall (fun kv : string * list Note => length (snd kv) <= 1) (singletons res)).
  { eapply Forall_impl; [|exact Hs]. intros a Ha. simpl in Ha. lia. }
  assert (Hround : forall fn fns,
             rounds (fn :: fns) (mkStore (singletons res) []) CallerDict LocalDict 0
             = mkOutcome (Ok res) (singletons res) 0).
  { intros fn fns. cbn [rounds rd wr caller_dict local_dict].
    rewrite (GroupFacts.fill_passthrough fn (singletons res) [] 0 Hle Hwf).
    cbn [f_raised f_working f_calls app].
    rewrite GroupFacts.collapse_singletons
      by (simpl; rewrite <- (GroupFacts.keys_singletons res); exact Hwf).
    destruct res as [|item res]; [now contradiction Hne | reflexivity]. }
  unfold dedup_paths. destruct s; apply Hround.
Qed.

(** Two titles, one note each. *)
Lemma dedup_paths_singletons_witness :
  let n := mkNote 0 (mkDatetime 2023 1 1 10 0 0 None) (mkDatetime 2023 1 1 10 0 0 None) "" in
  exists res,
    [("A", [n]); ("B", [n])] = singletons res
    /\ dedup_paths [("A", [n]); ("B", [n])] seqno_scheme
       = mkOutcome (Ok res) [("A", [n]); ("B", [n])] 0.
Proof.
  intros n. apply dedup_paths_singletons.
  - discriminate.
  - repeat constructor; simpl; intuition discriminate.
  - repeat constructor.
Defined.

(* ================================================================== *)
(** ** A note without a title *)

Module EmptyKey.

Lemma seqno_loop_ok w path seqno left s :
  seqno_loop w path seqno left = Ok s -> exists j, s = with_seqno path j.
Proof.
  revert seqno. induction left as [|left IH]; intros seqno; simpl; [discriminate|].
  destruct (Dict.mem _ w).
  - apply IH.
  - intros [= <-]. now exists seqno.
Qed.

Lemma with_seqno_ends path j : Str.ends_nonspace (with_seqno path j) = true.
Proof. unfold with_seqno. repeat apply StrFacts.ends_nonspace_app. apply StrFacts.of_nat_ends. Qed.

(** No strategy produces a path that [rstrip] empties. *)
Lemma call_ends fn w path note s :
  call fn w path note = Ok s -> Str.ends_nonspace (Str.rstrip s) = true.
Proof.
  destruct fn; simpl.
  - intros [= <-]. unfold _prepend_date.
    rewrite StrFacts.rstrip_app_ends by apply DatetimeFacts.format_date_ends.
    destruct (StrFacts.rstrip_result (" " ++ path)) as [E|E].
    + rewrite E, StrFacts.app_nil_r. apply DatetimeFacts.format_date_ends.
    + now apply StrFacts.ends_nonspace_app.
  - intros [= <-]. unfold _prepend_datetime.
    rewrite StrFacts.rstrip_app_ends by apply DatetimeFacts.format_datetime_ends.
    match goal with |- context [Str.rstrip ?x] =>
      destruct (StrFacts.rstrip_result x) as [E|E] end.
    + rewrite E, StrFacts.app_nil_r. apply DatetimeFacts.format_datetime_ends.
    + now apply StrFacts.ends_nonspace_app.
  - unfold _append_seqno. intros H. apply seqno_loop_ok in H as [j ->].
    rewrite StrFacts.rstrip_ends; apply with_seqno_ends.
Qed.

Lemma call_nonempty fn w path note s :
  call fn w path note = Ok s -> Str.rstrip s <> "".
Proof.
  intros H E. apply call_ends in H. rewrite E in H. discriminate.
Qed.

Lemma get_dd_extend_other (d : grouping) k k' vs :
  k <> k' -> Dict.get (dd_extend d k vs) k' = Dict.get d k'.
Proof.
  intros Hk. induction d as [|[k0 l] d IH]; simpl.
  - destruct (String.eqb_spec k k'); [contradiction | reflexivity].
  - destruct (String.eqb_spec k0 k) as [->|]; simpl.
    + destruct (String.eqb_spec k k'); [contradiction | reflexivity].
    + destruct (String.eqb_spec k0 k'); [reflexivity | exact IH].
Qed.

Lemma get_dd_extend_new (d : grouping) k vs :
  Dict.get d k = None -> Dict.get (dd_extend d k vs) k = Some vs.
Proof.
  induction d as [|[k0 l] d IH]; simpl.
  - now rewrite String.eqb_refl.
  - destruct (String.eqb_spec k0 k) as [->|Hn]; [discriminate|].
    simpl. destruct (String.eqb_spec k0 k); [contradiction | exact IH].
Qed.

Lemma fill_dups_empty_key fn path dups w n :
  Dict.get (f_working (fill_dups fn path dups w n)) "" = Dict.get w "".
Proof.
  revert w n. induction dups as [|dup dups IH]; intros w n; simpl; [reflexivity|].
  destruct (call fn w path dup) eqn:E; simpl; [|reflexivity].
  rewrite IH. apply get_dd_extend_other. now apply call_nonempty in E.
Qed.

Lemma fill_no_empty_key fn notes w n :
  ~ In "" (Dict.keys notes) ->
  Dict.get (f_working (fill fn notes w n)) "" = Dict.get w "".
Proof.
  revert w n. induction notes as [|[path dups] notes IH]; intros w n Hni; simpl; [reflexivity|].
  simpl in Hni. destruct (1 <? length dups).
  - destruct (f_raised (fill_dups fn path dups w n)).
    + apply fill_dups_empty_key.
    + rewrite IH by tauto. apply fill_dups_empty_key.
  - rewrite IH by tauto. apply get_dd_extend_other. tauto.
Qed.

Lemma fill_empty_key fn notes w n x :
  Dict.wf notes -> Dict.get notes "" = Some [x] -> Dict.get w "" = None ->
  f_raised (fill fn notes w n) = None ->
  Dict.get (f_working (fill fn notes w n)) "" = Some [x].
Proof.
  unfold Dict.wf.
  revert w n. induction notes as [|[path dups] notes IH]; intros w n Hwf Hg Hw; simpl;
    [discriminate|].
  simpl in Hg, Hwf. inversion Hwf as [|? ? Hni Hwf']; subst.
  destruct (String.eqb_spec path "") as [->|Hp].
  - injection Hg as ->. simpl. intros _.
    rewrite fill_no_empty_key by exact Hni. now apply get_dd_extend_new.
  - destruct (1 <? length dups).
    + destruct (f_raised (fill_dups fn path dups w n)) eqn:E; [congruence|].
      apply IH; [exact Hwf' | exact Hg |]. now rewrite fill_dups_empty_key.
    + apply IH; [exact Hwf' | exact Hg |]. rewrite get_dd_extend_other; auto.
Qed.

Lemma get_singletons (res : Dict.t Note) k x :
  Dict.get (singletons res) k = Some [x] -> Dict.get res k = Some x.
Proof.
  induction res as [|[k' n] res IH]; simpl; [discriminate|].
  destruct (String.eqb k' k); [now intros [= ->] | exact IH].
Qed.

Lemma rounds_empty_key fns s notes working n res x :
  notes <> working -> rd s working = [] ->
  Dict.wf (rd s notes) -> Dict.get (rd s notes) "" = Some [x] ->
  returned (rounds fns s notes working n) = Ok res ->
  Dict.get res "" = Some x.
Proof.
  revert s notes working n res.
  induction fns as [|fn fns IH]; intros s notes working n res Hneq Hw Hwf Hg; simpl;
    [discriminate|].
  rewrite Hw.
  pose proof (GroupFacts.fill_wf fn (rd s notes) [] n (NoDup_nil _)) as HwfW.
  pose proof (fill_empty_key fn (rd s notes) [] n x Hwf Hg eq_refl) as HgW.
  destruct (f_raised (fill fn (rd s notes) [] n)); [discriminate|].
  specialize (HgW eq_refl).
  set (W := f_working (fill fn (rd s notes) [] n)) in *.
  assert (Hrec : returned (rounds fns (wr (wr s working W) notes []) working notes
                             (f_calls (fill fn (rd s notes) [] n))) = Ok res ->
                 Dict.get res "" = Some x).
  { apply IH; [congruence | apply GroupFacts.rd_wr_same | |];
      rewrite GroupFacts.rd_wr_other, GroupFacts.rd_wr_same by congruence; assumption. }
  destruct (collapse W []) as [result| |] eqn:Ec; [|exact Hrec|discriminate].
  destruct result as [|item result]; [exact Hrec|].
  simpl. intros [= <-].
  apply GroupFacts.collapse_built in Ec; [|exact HwfW].
  destruct Ec as (res' & -> & EW). simpl. apply get_singletons. now rewrite <- EW.
Qed.

End EmptyKey.

(** C4, on the code.  When exactly one note stands under the empty
    path, whatever else the grouping holds, [dedup_paths] returns it
    under the empty path still: its group is never handed to a
    uniquify function, so no date is put before it. *)
Theorem empty_key_passes_through :
  forall (notes : grouping) (s : scheme) (res : Dict.t Note) (x : Note),
  Dict.wf notes -> Dict.get notes "" = Some [x] ->
  returned (dedup_paths notes s) = Ok res ->
  Dict.get res "" = Some x /\ "" <> Datetime.format_date (created x).
Proof.
  intros notes s res x Hwf Hg H. split.
  - unfold dedup_paths in H.
    eapply EmptyKey.rounds_empty_key in H; eauto; discriminate.
  - intros E. pose proof (DatetimeFacts.format_date_length (created x)) as L.
    rewrite <- E in L. simpl in L. lia.
Qed.

(** One note without a title, one with. *)
Lemma empty_key_passes_through_witness :
  let x := mkNote 0 (mkDatetime 2023 1 1 10 0 0 None) (mkDatetime 2023 1 1 10 0 0 None) "" in
  Dict.get [("", x); ("T", x)] "" = Some x /\ "" <> "2023-01-01".
Proof.
  intros x.
  apply (empty_key_passes_through [("", [x]); ("T", [x])] datetime_scheme
           [("", x); ("T", x)] x).
  - repeat constructor; simpl; intuition discriminate.
  - reflexivity.
  - reflexivity.
Defined.

(* ================================================================== *)
(** ** A run of [main] *)

Lemma with_suffix_last (outdir : Path) (c : ascii) (name suffix : string) :
  before_last_dot name = None ->
  with_suffix (outdir ++ [String c name])%list suffix = Ok (outdir ++ [(String c name ++ suffix)%string])%list.
Proof.
  intros Hn. induction outdir as [|part outdir IH].
  - simpl. now rewrite Hn.
  - change (with_suffix ((part :: outdir) ++ [String c name])%list suffix)
      with (match (outdir ++ [String c name])%list with
            | [] => name' <- name_with_suffix part suffix ;; Ok [name']
            | _ :: _ => p'' <- with_suffix (outdir ++ [String c name])%list suffix ;; Ok (part :: p'')
            end).
    destruct (outdir ++ [String c name])%list eqn:E.
    + now destruct outdir.
    + rewrite IH. reflexivity.
Qed.

(** C5, as stated, fails on the body: the text after the period starts
    with the space that followed it. *)
Lemma scenario_A_body :
  exists h f,
    main Iso.isoparse (mkArgs [buy_milk] ["out"] false datetime_scheme) []
    = Ok (h, [(["out"; "Buy milk.md"], f)])
    /\ body f = " Remember eggs too"
    /\ body f <> "Remember eggs too".
Proof.
  eexists. eexists. split; [vm_compute; reflexivity|]. split; [reflexivity | discriminate].
Qed.

(** C5, amended.  For the one record with content
    ["Buy milk. Remember eggs too"] and both timestamps
    ["2023-01-01T10:00:00Z"], read by an [isoparse] that takes the
    text for 10:00:00 UTC on 1 January 2023, [main] writes one file,
    [Buy milk.md] in the output directory; its header holds [created]
    and [modified], both [2023-01-01T10:00:00+00:00], and its body is
    [" Remember eggs too"], the text after the period with its leading
    space. *)
Theorem scenario_A :
  forall (isoparse : string -> result datetime) (dir : Path) (ow : bool) (s : scheme)
         (fs : filesystem),
  isoparse "2023-01-01T10:00:00Z" = Ok buy_milk_time ->
  fs_get fs (dir ++ ["Buy milk.md"])%list = None ->
  main isoparse (mkArgs [buy_milk] dir ow s) fs
  = Ok ([buy_milk_header],
        fs_put fs (dir ++ ["Buy milk.md"])%list
               (mkFile buy_milk_header " Remember eggs too" buy_milk_time))
  /\ Dict.get buy_milk_header "created" = Some (JStr "2023-01-01T10:00:00+00:00").
Proof.
  intros isoparse dir ow s fs Hiso Hfs. split; [|reflexivity].
  unfold main, buy_milk. cbn [infile parse_infile].
  unfold parse_entry. cbn -[Datetime.isoformat]. rewrite Hiso. cbn -[Datetime.isoformat].
  assert (Hd : returned (dedup_paths
                 [("Buy milk", [mkNote 0 buy_milk_time buy_milk_time " Remember eggs too"])] s)
               = Ok [("Buy milk", mkNote 0 buy_milk_time buy_milk_time " Remember eggs too")])
    by (destruct s; reflexivity).
  unfold group_notes. cbn [fold_left fst snd dd_append dd_extend].
  rewrite Hd. cbn [bind target_paths joinpath outdir].
  rewrite (with_suffix_last dir "B" "uy milk" ".md" eq_refl).
  cbn [bind target_paths paths_set existsb map app filter fst snd String.append].
  rewrite Hfs. destruct ow; reflexivity.
Qed.

(** With the model of [isoparse], into the empty directory [out]. *)
Lemma scenario_A_witness :
  main Iso.isoparse (mkArgs [buy_milk] ["out"] false datetime_scheme) []
  = Ok ([buy_milk_header],
        [(["out"; "Buy milk.md"], mkFile buy_milk_header " Remember eggs too" buy_milk_time)])
  /\ Dict.get buy_milk_header "created" = Some (JStr "2023-01-01T10:00:00+00:00").
Proof.
  exact (scenario_A Iso.isoparse ["out"] false datetime_scheme [] eq_refl eq_refl).
Defined.

(* ================================================================== *)
(** ** What happens to a note *)

Module HeapFacts.

Lemma heap_get_set_same (h : heap) (l : loc) (d : Dict.t json) :
  l < length h -> heap_get (heap_set h l d) l = d.
Proof.
  unfold heap_get. revert l. induction h as [|d0 h IH]; intros l Hl; simpl in Hl; [lia|].
  destruct l; simpl; [reflexivity|]. apply IH. lia.
Qed.

Lemma heap_get_set_other (h : heap) (l l' : loc) (d : Dict.t json) :
  l <> l' -> heap_get (heap_set h l d) l' = heap_get h l'.
Proof.
  unfold heap_get. revert l l'. induction h as [|d0 h IH]; intros l l' Hn; simpl.
  - reflexivity.
  - destruct l, l'; simpl; try reflexivity; [congruence|]. apply IH. congruence.
Qed.

Lemma heap_set_length (h : heap) (l : loc) (d : Dict.t json) :
  length (heap_set h l d) = length h.
Proof.
  revert l. induction h as [|d0 h IH]; intros l; simpl; [reflexivity|].
  destruct l; simpl; [reflexivity|]. now rewrite IH.
Qed.

End HeapFacts.

(** C8, as stated, fails on [write_note]: the dictionary behind
    [note.metadata] is not the same after the call. *)
Lemma write_note_changes_metadata :
  let note := mkNote 0 buy_milk_time buy_milk_time "text" in
  let h := [[("created_latitude", JNum "1.5")]] in
  view h note
  = ([("created_latitude", JNum "1.5")], buy_milk_time, buy_milk_time, "text")
  /\ view (fst (write_note ["note.md"] note h [])) note
     = ([("created_latitude", JNum "1.5");
         ("created", JStr "2023-01-01T10:00:00+00:00");
         ("modified", JStr "2023-01-01T10:00:00+00:00")],
        buy_milk_time, buy_milk_time, "text")
  /\ view (fst (write_note ["note.md"] note h [])) note <> view h note.
Proof.
  split; [reflexivity|]. split; [reflexivity | discriminate].
Qed.

(** C8, amended.  [dedup_paths] hands back the notes it was given and
    touches no dictionary of theirs.  [write_note] leaves the
    timestamps and the content of its note as they are, and sets the
    keys [created] and [modified] in the dictionary behind
    [note.metadata], in place: the other keys of that dictionary keep
    their values, and the dictionaries of other notes are untouched. *)
Theorem notes_through_the_pipeline :
  (forall (notes : grouping) (s : scheme) (res : Dict.t Note) (note : Note),
      returned (dedup_paths notes s) = Ok res ->
      In note (Dict.values res) -> In note (all_notes notes))
  /\ (forall (path : Path) (note : Note) (h : heap) (fs : filesystem),
        metadata note < length h ->
        let h' := fst (write_note path note h fs) in
        let md := Dict.set (Dict.set (heap_get h (metadata note))
                              "created" (JStr (Datetime.isoformat (created note))))
                           "modified" (JStr (Datetime.isoformat (modified note))) in
        view h' note = (md, created note, modified note, content note)
        /\ Dict.get md "created" = Some (JStr (Datetime.isoformat (created note)))
        /\ Dict.get md "modified" = Some (JStr (Datetime.isoformat (modified note)))
        /\ (forall k, k <> "created" -> k <> "modified" ->
              Dict.get md k = Dict.get (heap_get h (metadata note)) k)
        /\ (forall other, metadata other <> metadata note ->
              view h' other = view h other)
        /\ length h' = length h).
Proof.
  split.
  - intros notes s res note H Hin. unfold dedup_paths in H.
    apply GroupFacts.rounds_returns in H; [|discriminate|reflexivity].
    destruct H as [_ H]. eapply Permutation_in; eassumption.
  - intros path note h fs Hl h' md. subst h' md. unfold write_note, view. simpl.
    rewrite HeapFacts.heap_get_set_same by exact Hl.
    split; [reflexivity|]. split.
    { rewrite DictFacts.get_set_other by discriminate. apply DictFacts.get_set_same. }
    split; [apply DictFacts.get_set_same|]. split.
    { intros k Hc Hm. rewrite !DictFacts.get_set_other by congruence. reflexivity. }
    split.
    { intros other Ho. rewrite HeapFacts.heap_get_set_other by congruence. reflexivity. }
    apply HeapFacts.heap_set_length.
Qed.

(** A note with a latitude, written beside a note without. *)
Lemma notes_through_the_pipeline_witness :
  let note := mkNote 0 buy_milk_time buy_milk_time "text" in
  let other := mkNote 1 buy_milk_time buy_milk_time "more" in
  let h := [[("created_latitude", JNum "1.5")]; []] in
  view (fst (write_note ["note.md"] note h [])) other = view h other.
Proof.
  intros note other h.
  destruct notes_through_the_pipeline as [_ H].
  destruct (H ["note.md"] note h []) as (_ & _ & _ & _ & Ho & _).
  - simpl. lia.
  - apply Ho. discriminate.
Defined.

(* ================================================================== *)
(** ** Sequence numbers *)

Module SeqnoFacts.

Lemma with_seqno_inj path j k : with_seqno path j = with_seqno path k -> j = k.
Proof.
  unfold with_seqno. intros H. apply StrFacts.app_inv_head in H.
  injection H as H. now apply StrFacts.of_nat_inj.
Qed.

Lemma rstrip_with_seqno path k : Str.rstrip (with_seqno path k) = with_seqno path k.
Proof. apply StrFacts.rstrip_ends, EmptyKey.with_seqno_ends. Qed.

(** The loop stops at the first number whose path is free. *)
Lemma seqno_loop_first w path left seqno k :
  seqno <= k < seqno + left ->
  (forall j, seqno <= j < k -> Dict.mem (with_seqno path j) w = true) ->
  Dict.mem (with_seqno path k) w = false ->
  seqno_loop w path seqno left = Ok (with_seqno path k).
Proof.
  revert seqno. induction left as [|left IH]; intros seqno Hk Hused Hfree; [lia|].
  change (seqno_loop w path seqno (S left))
    with (if Dict.mem (with_seqno path seqno) w
          then seqno_loop w path (S seqno) left else Ok (with_seqno path seqno)).
  destruct (Nat.eq_dec seqno k) as [->|Hne].
  - now rewrite Hfree.
  - rewrite Hused by lia. apply IH; [lia | intros j Hj; apply Hused; lia | exact Hfree].
Qed.

(** The loop runs out exactly when every path it tries is taken. *)
Lemma seqno_loop_raise w path left seqno :
  (forall j, seqno <= j < seqno + left -> Dict.mem (with_seqno path j) w = true)
  <-> seqno_loop w path seqno left = Raise (seqno_exhausted path).
Proof.
  revert seqno. induction left as [|left IH]; intros seqno.
  - simpl. split; [reflexivity | intros _ j Hj; lia].
  - change (seqno_loop w path seqno (S left))
      with (if Dict.mem (with_seqno path seqno) w
            then seqno_loop w path (S seqno) left else Ok (with_seqno path seqno)).
    split.
    + intros H. rewrite H by lia. apply IH. intros j Hj. apply H. lia.
    + destruct (Dict.mem (with_seqno path seqno) w) eqn:E; [|discriminate].
      intros H j Hj. destruct (Nat.eq_dec j seqno) as [->|Hne]; [exact E|].
      apply (proj2 (IH (S seqno)) H). lia.
Qed.

(** The loop either returns the first free path or raises. *)
Lemma seqno_loop_cases w path left seqno :
  (exists k, seqno <= k < seqno + left
             /\ seqno_loop w path seqno left = Ok (with_seqno path k)
             /\ Dict.mem (with_seqno path k) w = false
             /\ forall j, seqno <= j < k -> Dict.mem (with_seqno path j) w = true)
  \/ seqno_loop w path seqno left = Raise (seqno_exhausted path).
Proof.
  revert seqno. induction left as [|left IH]; intros seqno; [now right|].
  change (seqno_loop w path seqno (S left))
    with (if Dict.mem (with_seqno path seqno) w
          then seqno_loop w path (S seqno) left else Ok (with_seqno path seqno)).
  destruct (Dict.mem (with_seqno path seqno) w) eqn:E.
  - destruct (IH (S seqno)) as [(k & Hk & Hr & Hf & Hu)|Hr]; [left | now right].
    exists k. split; [lia|]. split; [exact Hr|]. split; [exact Hf|].
    intros j Hj. destruct (Nat.eq_dec j seqno) as [->|Hne]; [exact E | apply Hu; lia].
  - left. exists seqno. split; [lia|]. split; [reflexivity|]. split; [exact E|].
    intros j Hj. lia.
Qed.

Lemma mem_app_new (w : grouping) k k' l :
  Dict.mem k' (w ++ [(k, l)])%list = Dict.mem k' w || String.eqb k k'.
Proof.
  unfold Dict.mem. induction w as [|[k0 l0] w IH]; simpl.
  - now destruct (String.eqb k k').
  - destruct (String.eqb k0 k'); [reflexivity | exact IH].
Qed.

(** A colliding group numbered from [start], into a [working] that
    holds the paths below [start] and none from [start] on. *)
Lemma fill_dups_numbered path dups start w n :
  1 <= start <= 1000 ->
  (forall j, 1 <= j < start -> Dict.mem (with_seqno path j) w = true) ->
  (forall j, start <= j <= 999 -> Dict.mem (with_seqno path j) w = false) ->
  fill_dups AppendSeqno path dups w n
  = if start + length dups <=? 1000
    then mkFilled (w ++ numbered path start dups)%list (n + length dups) None
    else mkFilled (w ++ numbered path start (firstn (1000 - start) dups))%list
                  (n + (1000 - start) + 1) (Some (seqno_exhausted path)).
Proof.
  revert start w n. induction dups as [|dup dups IH]; intros start w n Hs Hused Hfree.
  - simpl. replace (start + 0 <=? 1000) with true by (symmetry; apply Nat.leb_le; lia).
    now rewrite List.app_nil_r, Nat.add_0_r.
  - destruct (Nat.eq_dec start 1000) as [->|Hlt].
    + simpl fill_dups. unfold _append_seqno.
      rewrite (proj1 (seqno_loop_raise w path 999 1)) by (intros j Hj; apply Hused; lia).
      simpl. rewrite List.app_nil_r. f_equal. lia.
    + simpl fill_dups. unfold _append_seqno.
      rewrite (seqno_loop_first w path 999 1 start)
        by (try lia; try (intros j Hj; apply Hused; lia); apply Hfree; lia).
      rewrite rstrip_with_seqno. unfold dd_append.
      rewrite GroupFacts.dd_extend_fresh
        by (apply DictFacts.mem_false, Hfree; lia).
      rewrite (IH (S start)).
      * simpl length. replace (S start + length dups) with (start + S (length dups)) by lia.
        replace (1000 - start) with (S (1000 - S start)) by lia.
        destruct (start + S (length dups) <=? 1000); simpl firstn; simpl numbered;
          rewrite <- List.app_assoc; simpl app; f_equal; lia.
      * lia.
      * intros j Hj. rewrite mem_app_new.
        destruct (Nat.eq_dec j start) as [->|Hne].
        -- rewrite String.eqb_refl. apply orb_true_r.
        -- rewrite Hused by lia. reflexivity.
      * intros j Hj. rewrite mem_app_new, Hfree by lia. simpl.
        apply String.eqb_neq. intros E. apply with_seqno_inj in E. lia.
Qed.

End SeqnoFacts.

(** C2.  [_append_seqno] returns the path, a space and the smallest
    number from 1 to 999 whose path is not a key of [working], and the
    key stored for the note is that path; it raises "could not dedup
    path" exactly when each of the 999 paths is a key of [working].  So
    a colliding group filled into a [working] that holds none of its
    numbered paths gets the numbers 1, 2, ... in order, and the call
    for the 1000th note of the group raises. *)
Theorem append_seqno_spec : forall (working : grouping) (path : string) (note : Note),
  (forall k, 1 <= k <= 999 ->
      (forall j, 1 <= j < k -> Dict.mem (with_seqno path j) working = true) ->
      Dict.mem (with_seqno path k) working = false ->
      _append_seqno working path note = Ok (with_seqno path k)
      /\ Str.rstrip (with_seqno path k) = with_seqno path k)
  /\ ((forall j, 1 <= j <= 999 -> Dict.mem (with_seqno path j) working = true)
      <-> _append_seqno working path note = Raise (seqno_exhausted path))
  /\ ((exists k, 1 <= k <= 999
                 /\ _append_seqno working path note = Ok (with_seqno path k)
                 /\ Dict.mem (with_seqno path k) working = false
                 /\ forall j, 1 <= j < k -> Dict.mem (with_seqno path j) working = true)
      \/ _append_seqno working path note = Raise (seqno_exhausted path))
  /\ (forall (dups : list Note) (n : nat),
        (forall j, 1 <= j <= 999 -> Dict.mem (with_seqno path j) working = false) ->
        (length dups <= 999 ->
           fill_dups AppendSeqno path dups working n
           = mkFilled (working ++ numbered path 1 dups)%list (n + length dups) None)
        /\ (1000 <= length dups ->
              fill_dups AppendSeqno path dups working n
              = mkFilled (working ++ numbered path 1 (firstn 999 dups))%list (n + 1000)
                         (Some (seqno_exhausted path)))).
Proof.
  intros working path note. unfold _append_seqno. split; [|split; [|split]].
  - intros k Hk Hused Hfree. split.
    + apply SeqnoFacts.seqno_loop_first; [lia | exact Hused | exact Hfree].
    + apply SeqnoFacts.rstrip_with_seqno.
  - rewrite <- SeqnoFacts.seqno_loop_raise. split; intros H j Hj; apply H; lia.
  - destruct (SeqnoFacts.seqno_loop_cases working path 999 1) as [(k & Hk & H)|H];
      [left; exists k; split; [lia | exact H] | now right].
  - intros dups n Hfree.
    pose proof (SeqnoFacts.fill_dups_numbered path dups 1 working n) as H.
    rewrite H; [|lia | intros j Hj; lia | exact Hfree].
    split; intros Hl.
    + replace (1 + length dups <=? 1000) with true by (symmetry; apply Nat.leb_le; lia).
      reflexivity.
    + replace (1 + length dups <=? 1000) with false by (symmetry; apply Nat.leb_gt; lia).
      change (1000 - 1) with 999. f_equal. lia.
Qed.

(** Two notes under ["T"], into a [working] that holds ["T 1"]: the
    first free number is 2. *)
Lemma append_seqno_witness :
  let note := mkNote 0 buy_milk_time buy_milk_time "" in
  _append_seqno [("T 1", [note])] "T" note = Ok "T 2"
  /\ Str.rstrip "T 2" = "T 2".
Proof.
  intros note.
  destruct (append_seqno_spec [("T 1", [note])] "T" note) as (H & _).
  apply (H 2).
  - lia.
  - intros j Hj. assert (j = 1) as -> by lia. reflexivity.
  - reflexivity.
Defined.

(* ================================================================== *)
(** ** The caller's dictionary *)

Module Provenance.

Lemma inv_mono fn N done done' W :
  (forall K, In K done -> In K done') -> round_inv fn N done W -> round_inv fn N done' W.
Proof.
  intros Hsub H K l Hin. destruct (H K l Hin) as [Hm|[Hl Hd]]; [now left | right; auto].
Qed.

Lemma in_dd_extend (W : grouping) k vs K l :
  In (K, l) (dd_extend W k vs) ->
  In (K, l) W
  \/ (K = k /\ (l = vs \/ exists l0, In (k, l0) W /\ l = (l0 ++ vs)%list)).
Proof.
  induction W as [|[k0 l0] W IH]; simpl.
  - intros [[= <- <-]|[]]. right. auto.
  - destruct (String.eqb_spec k0 k) as [->|Hn]; simpl.
    + intros [[= <- <-]|Hin]; [|tauto].
      right. split; [reflexivity|]. right. exists l0. auto.
    + intros [E|Hin]; [tauto|].
      destruct (IH Hin) as [H|(-> & [->|(l1 & H1 & ->)])]; [tauto | right; auto |].
      right. split; [reflexivity|]. right. exists l1. auto.
Qed.

Lemma fill_dups_inv fn N done P dups W n :
  colliding N P -> round_inv fn N done W ->
  round_inv fn N done (f_working (fill_dups fn P dups W n)).
Proof.
  intros HP. revert W n. induction dups as [|dup dups IH]; intros W n HW; simpl; [exact HW|].
  destruct (call fn W P dup) as [s|e] eqn:Ec; simpl; [|exact HW].
  apply IH. intros K l Hin. apply in_dd_extend in Hin as [Hin|[-> _]]; [now apply HW|].
  left. exists P, dup, W, s. auto.
Qed.

Lemma fill_inv fn N N' done W n :
  (forall P dups, In (P, dups) N' -> In (P, dups) N) ->
  NoDup (done ++ Dict.keys N') ->
  round_inv fn N done W ->
  round_inv fn N (done ++ Dict.keys N') (f_working (fill fn N' W n)).
Proof.
  revert done W n. induction N' as [|[P dups] N' IH]; intros done W n Hsub Hnd HW.
  - simpl. now rewrite List.app_nil_r.
  - assert (Hsub' : forall P0 dups0, In (P0, dups0) N' -> In (P0, dups0) N)
      by (intros; apply Hsub; now right).
    assert (Hnd' : NoDup ((done ++ [P]) ++ Dict.keys N'))
      by (rewrite <- List.app_assoc; exact Hnd).
    assert (Hmono : forall K, In K done -> In K (done ++ [P])%list)
      by (intros; apply in_or_app; now left).
    assert (Heq : (done ++ Dict.keys ((P, dups) :: N'))%list
                  = ((done ++ [P]) ++ Dict.keys N')%list)
      by (now rewrite <- List.app_assoc).
    rewrite Heq. simpl fill. destruct (1 <? length dups) eqn:El.
    + assert (HP : colliding N P).
      { exists dups. split; [apply Hsub; now left | now apply Nat.ltb_lt]. }
      pose proof (fill_dups_inv fn N done P dups W n HP HW) as H1.
      destruct (f_raised (fill_dups fn P dups W n)).
      * eapply inv_mono; [|exact H1]. intros K HK. apply in_or_app. left. now apply Hmono.
      * apply IH; [exact Hsub' | exact Hnd' |]. eapply inv_mono; eassumption.
    + apply Nat.ltb_ge in El.
      apply IH; [exact Hsub' | exact Hnd' |].
      intros K l Hin. apply in_dd_extend in Hin as [Hin|[-> Hl]].
      * destruct (HW K l Hin) as [Hm|[Hl Hd]]; [now left | right; auto].
      * destruct Hl as [->|(l0 & Hin & ->)].
        -- right. split; [exact El | apply in_or_app; right; now left].
        -- destruct (HW P l0 Hin) as [Hm|[_ Hd]]; [now left|].
           exfalso. apply NoDup_remove_2 in Hnd. apply Hnd, in_or_app. now left.
Qed.

(** A key with two notes or more after a round was made by the
    round's strategy from a colliding group. *)
Lemma fill_colliding fn N n K :
  Dict.wf N -> colliding (f_working (fill fn N [] n)) K -> made_by fn N K.
Proof.
  intros Hwf (l & Hin & Hl).
  assert (H : round_inv fn N ([] ++ Dict.keys N) (f_working (fill fn N [] n))).
  { apply fill_inv; [auto | exact Hwf | intros K0 l0 []]. }
  destruct (H K l Hin) as [Hm|[Hle _]]; [exact Hm | lia].
Qed.

Lemma collapse_conflict (w : grouping) (acc : Dict.t Note) :
  collapse w acc = Conflict -> exists K, colliding w K.
Proof.
  revert acc. induction w as [|[k l] w IH]; intros acc; simpl; [discriminate|].
  destruct (1 <? length l) eqn:El.
  - intros _. exists k, l. split; [now left | now apply Nat.ltb_lt].
  - destruct l as [|n l]; [discriminate|]. intros H.
    destruct (IH _ H) as (K & l' & Hin & Hl). exists K, l'. split; [now right | exact Hl].
Qed.

(** *** Paths only grow *)

Lemma ends_nonspace_suffix (a r : string) :
  Str.ends_nonspace (a ++ r) = true -> r <> "" -> Str.ends_nonspace r = true.
Proof.
  intros H Hr. induction a as [|c a IH]; [exact H|].
  apply IH. simpl in H. destruct (a ++ r) eqn:E; [|exact H].
  destruct a; simpl in E; [congruence | discriminate].
Qed.

Lemma removeprefix_length (P d : string) :
  Str.ends_nonspace P = true ->
  String.length P <= String.length (Str.rstrip (" " ++ Str.removeprefix P d)) + String.length d.
Proof.
  intros HP. destruct (StrFacts.removeprefix_cases P d) as [E|E].
  - remember (Str.removeprefix P d) as r eqn:Er. clear Er.
    destruct r as [|c r].
    + subst P. rewrite StrFacts.length_app. simpl. lia.
    + assert (Hr : Str.ends_nonspace (String c r) = true)
        by (apply (ends_nonspace_suffix d); [now rewrite <- E | discriminate]).
      rewrite StrFacts.rstrip_ends by now apply StrFacts.ends_nonspace_app.
      rewrite E at 1. rewrite !StrFacts.length_app. simpl. lia.
  - rewrite E. rewrite StrFacts.rstrip_ends by now apply StrFacts.ends_nonspace_app.
    rewrite StrFacts.length_app. simpl. lia.
Qed.

(** A path that went through [_prepend_date] and then through any
    strategy is longer than it was. *)
Lemma growth fn w0 K0 dup' dup s :
  Str.ends_nonspace K0 = true ->
  call fn w0 (Str.rstrip (_prepend_date K0 dup')) dup = Ok s ->
  String.length K0 < String.length (Str.rstrip s).
Proof.
  intros HK0. unfold _prepend_date.
  assert (HP : Str.ends_nonspace (Datetime.format_date (created dup') ++ " " ++ K0) = true)
    by (repeat apply StrFacts.ends_nonspace_app; exact HK0).
  rewrite (StrFacts.rstrip_ends _ HP).
  set (P := Datetime.format_date (created dup') ++ " " ++ K0) in *.
  assert (LP : String.length K0 < String.length P)
    by (unfold P; rewrite !StrFacts.length_app; simpl; lia).
  destruct fn; simpl.
  - intros [= <-]. unfold _prepend_date.
    rewrite StrFacts.rstrip_ends by (do 2 apply StrFacts.ends_nonspace_app; exact HP).
    rewrite !StrFacts.length_app. simpl. lia.
  - intros [= <-]. unfold _prepend_datetime.
    rewrite StrFacts.rstrip_app_ends by apply DatetimeFacts.format_datetime_ends.
    rewrite StrFacts.length_app.
    pose proof (removeprefix_length P (Datetime.format_date (created dup)) HP).
    pose proof (DatetimeFacts.format_datetime_length (created dup)). lia.
  - unfold _append_seqno. intros H. apply EmptyKey.seqno_loop_ok in H as [j ->].
    rewrite SeqnoFacts.rstrip_with_seqno. unfold with_seqno.
    rewrite !StrFacts.length_app. simpl. lia.
Qed.

(** *** Two rounds never give the grouping back *)

Lemma two_rounds_differ fn2 N n1 n2 :
  Dict.wf N ->
  (exists K, colliding (f_working (fill PrependDate N [] n1)) K) ->
  f_working (fill fn2 (f_working (fill PrependDate N [] n1)) [] n2) <> N.
Proof.
  intros Hwf [K1 HK1] E.
  set (W1 := f_working (fill PrependDate N [] n1)) in *.
  assert (Hwf1 : Dict.wf W1) by (apply GroupFacts.fill_wf; constructor).
  assert (Hends : forall K, colliding N K -> Str.ends_nonspace K = true).
  { intros K HK. rewrite <- E in HK. apply fill_colliding in HK; [|exact Hwf1].
    destruct HK as (P & dup & w0 & s & _ & Hc & ->). eapply EmptyKey.call_ends, Hc. }
  assert (Hstep : forall K, colliding N K ->
                    exists K0, colliding N K0 /\ String.length K0 < String.length K).
  { intros K HK. rewrite <- E in HK. apply fill_colliding in HK; [|exact Hwf1].
    destruct HK as (P & dup & w0 & s & HP & Hc & ->).
    apply fill_colliding in HP; [|exact Hwf].
    destruct HP as (K0 & dup' & w0' & s' & HK0 & Hc' & ->).
    simpl in Hc'. injection Hc' as <-.
    exists K0. split; [exact HK0|]. eapply growth; [apply Hends, HK0 | exact Hc]. }
  assert (Hnone : forall m K, String.length K < m -> ~ colliding N K).
  { induction m as [|m IH]; intros K Hl HK; [lia|].
    destruct (Hstep K HK) as (K0 & HK0 & Hl0). apply (IH K0); [lia | exact HK0]. }
  apply fill_colliding in HK1; [|exact Hwf].
  destruct HK1 as (P & _ & _ & _ & HP & _).
  exact (Hnone (S (String.length P)) P (Nat.lt_succ_diag_r _) HP).
Qed.

(** *** A round on a grouping with keys fills something in *)

Lemma dd_extend_nonempty (w : grouping) k vs : dd_extend w k vs <> [].
Proof. destruct w as [|[k' l] w]; simpl; [|destruct (String.eqb k' k)]; discriminate. Qed.

Lemma fill_dups_nonempty fn path dups w n :
  w <> [] -> f_working (fill_dups fn path dups w n) <> [].
Proof.
  revert w n. induction dups as [|dup dups IH]; intros w n H; simpl; [exact H|].
  destruct (call fn w path dup); simpl; [|exact H]. apply IH, dd_extend_nonempty.
Qed.

Lemma fill_keeps_nonempty fn N w n : w <> [] -> f_working (fill fn N w n) <> [].
Proof.
  revert w n. induction N as [|[path dups] N IH]; intros w n H; simpl; [exact H|].
  destruct (1 <? length dups).
  - pose proof (fill_dups_nonempty fn path dups w n H) as H'.
    destruct (f_raised (fill_dups fn path dups w n)); [exact H' | now apply IH].
  - apply IH, dd_extend_nonempty.
Qed.

Lemma fill_dups_started fn path dups w n :
  dups <> [] -> f_raised (fill_dups fn path dups w n) = None ->
  f_working (fill_dups fn path dups w n) <> [].
Proof.
  destruct dups as [|dup dups]; [congruence|]. intros _. simpl.
  destruct (call fn w path dup); [|discriminate].
  intros _. apply fill_dups_nonempty, dd_extend_nonempty.
Qed.

Lemma fill_nonempty fn N w n :
  N <> [] -> f_raised (fill fn N w n) = None -> f_working (fill fn N w n) <> [].
Proof.
  destruct N as [|[path dups] N]; [congruence|]. intros _.
  cbn [fill]. destruct (1 <? length dups) eqn:E.
  - destruct (f_raised (fill_dups fn path dups w n)) eqn:R.
    + rewrite R. discriminate.
    + intros _. apply fill_keeps_nonempty, fill_dups_started; [|exact R].
      destruct dups; [discriminate | congruence].
  - intros _. apply fill_keeps_nonempty, dd_extend_nonempty.
Qed.

(** The two strategies that prepend never raise. *)
Lemma fill_dups_prepend_raised fn path dups w n :
  fn <> AppendSeqno -> f_raised (fill_dups fn path dups w n) = None.
Proof.
  intros Hfn. revert w n. induction dups as [|dup dups IH]; intros w n; simpl; [reflexivity|].
  destruct fn; simpl; try apply IH. congruence.
Qed.

Lemma fill_prepend_raised fn N w n :
  fn <> AppendSeqno -> f_raised (fill fn N w n) = None.
Proof.
  intros Hfn. revert w n. induction N as [|[path dups] N IH]; intros w n; simpl; [reflexivity|].
  destruct (1 <? length dups); [|apply IH].
  rewrite fill_dups_prepend_raised by exact Hfn. apply IH.
Qed.

(** *** Where the caller's dictionary ends *)

(** A failed first round hands over to the remaining strategies with
    the two dictionaries swapped and the caller's one cleared. *)
Lemma after_first_round notes s :
  first_round_fails notes s = true ->
  dedup_paths notes s
  = rounds (tl (dedup_schemes s))
           (mkStore [] (f_working (fill PrependDate notes [] 0)))
           LocalDict CallerDict (f_calls (fill PrependDate notes [] 0)).
Proof.
  unfold first_round_fails, dedup_paths.
  assert (H : forall fns,
             match f_raised (fill PrependDate notes [] 0),
                   collapse (f_working (fill PrependDate notes [] 0)) [] with
             | None, Built [] | None, Conflict => true
             | _, _ => false
             end = true ->
             rounds (PrependDate :: fns) (mkStore notes []) CallerDict LocalDict 0
             = rounds fns (mkStore [] (f_working (fill PrependDate notes [] 0)))
                      LocalDict CallerDict (f_calls (fill PrependDate notes [] 0))).
  { intros fns. cbn [rounds rd wr caller_dict local_dict].
    destruct (f_raised (fill PrependDate notes [] 0)); [discriminate|].
    destruct (collapse _ []) as [[|item result]| |]; try discriminate; reflexivity. }
  destruct s; apply H.
Qed.

(** The last round of a scheme of three: the caller's dictionary is
    read, and cleared when the round fails. *)
Lemma third_round fn c n :
  let o := rounds [fn] (mkStore c []) CallerDict LocalDict n in
  caller_after o = c \/ (returned o = Raise dedup_failed /\ caller_after o = []).
Proof.
  cbn [rounds rd wr caller_dict local_dict].
  destruct (f_raised (fill fn c [] n)); [now left|].
  destruct (collapse _ []) as [[|item result]| |]; cbn; auto.
Qed.

(** The second round fills the caller's dictionary; only a third
    round can clear it again. *)
Lemma second_round_caller fn2 fns w1 n :
  let o := rounds (fn2 :: fns) (mkStore [] w1) LocalDict CallerDict n in
  (fns = [] -> caller_after o = f_working (fill fn2 w1 [] n))
  /\ (forall fn3, fns = [fn3] ->
        caller_after o = f_working (fill fn2 w1 [] n)
        \/ (returned o = Raise dedup_failed /\ caller_after o = [])).
Proof.
  cbn zeta. split.
  - intros ->. cbn [rounds rd wr caller_dict local_dict].
    destruct (f_raised (fill fn2 w1 [] n)); [reflexivity|].
    destruct (collapse _ []) as [[|item result]| |]; reflexivity.
  - intros fn3 ->.
    pose proof (third_round fn3 (f_working (fill fn2 w1 [] n)) (f_calls (fill fn2 w1 [] n)))
      as H3. cbn zeta in H3.
    cbn [rounds rd wr caller_dict local_dict] in *.
    destruct (f_raised (fill fn2 w1 [] n)); [now left|].
    destruct (collapse (f_working (fill fn2 w1 [] n)) []) as [[|item result]| |];
      [exact H3 | now left | exact H3 | now left].
Qed.

Lemma caller_after_failed_round notes s :
  first_round_fails notes s = true ->
  caller_after (dedup_paths notes s) = f_working (second_round notes s)
  \/ (s = datetime_scheme
      /\ returned (dedup_paths notes s) = Raise dedup_failed
      /\ caller_after (dedup_paths notes s) = []).
Proof.
  intros H. rewrite (after_first_round notes s H). unfold second_round.
  destruct s; cbn [dedup_schemes tl].
  - destruct (second_round_caller PrependDatetime [AppendSeqno]
                (f_working (fill PrependDate notes [] 0))
                (f_calls (fill PrependDate notes [] 0))) as [_ H2].
    destruct (H2 AppendSeqno eq_refl) as [E|E]; [now left | right; auto].
  - left.
    destruct (second_round_caller AppendSeqno []
                (f_working (fill PrependDate notes [] 0))
                (f_calls (fill PrependDate notes [] 0))) as [H2 _].
    now apply H2.
Qed.

End Provenance.

(** C9, as stated, fails in two ways.  On the grouping without keys
    the first round fails and the caller's dictionary is as it was.
    On [stubborn] under the datetime scheme all three rounds fail, and
    the caller's dictionary ends empty, cleared a second time, not
    holding what the second round filled in. *)
Lemma caller_dict_left_unchanged_or_empty :
  (first_round_fails [] datetime_scheme = true
   /\ caller_after (dedup_paths [] datetime_scheme) = [])
  /\ (first_round_fails stubborn datetime_scheme = true
      /\ returned (dedup_paths stubborn datetime_scheme) = Raise dedup_failed
      /\ caller_after (dedup_paths stubborn datetime_scheme) = []
      /\ Dict.keys (f_working (second_round stubborn datetime_scheme))
         = ["2023-01-01 10-00-00  X"; "2023-01-01 10-00-00  X 1"]).
Proof.
  split; [split; reflexivity|].
  split; [reflexivity|]. split; [reflexivity|]. split; reflexivity.
Qed.

(** C9, amended.  Whenever the first round fails on a grouping with at
    least one key, [dedup_paths] changes the dictionary its caller
    passed in: it is cleared and becomes the [working] of the second
    round.  After the call, returned or raised, it holds what the
    second round filled in (all of it, or what was filled in before
    [_append_seqno] raised) — or, when the three strategies of the
    datetime scheme all failed, it has been cleared again and is
    empty.  In every case it differs from the grouping passed in. *)
Theorem caller_dict_after_failed_round : forall (notes : grouping) (s : scheme),
  Dict.wf notes -> notes <> [] ->
  first_round_fails notes s = true ->
  caller_after (dedup_paths notes s) <> notes
  /\ (caller_after (dedup_paths notes s) = f_working (second_round notes s)
      \/ (s = datetime_scheme
          /\ returned (dedup_paths notes s) = Raise dedup_failed
          /\ caller_after (dedup_paths notes s) = [])).
Proof.
  intros notes s Hwf Hne Hfail.
  pose proof (Provenance.caller_after_failed_round notes s Hfail) as Hc.
  split; [|exact Hc].
  assert (Hcol : exists K, colliding (f_working (fill PrependDate notes [] 0)) K).
  { unfold first_round_fails in Hfail.
    assert (H : match f_raised (fill PrependDate notes [] 0),
                      collapse (f_working (fill PrependDate notes [] 0)) [] with
                | None, Built [] | None, Conflict => true
                | _, _ => false
                end = true) by (destruct s; exact Hfail).
    pose proof (Provenance.fill_nonempty PrependDate notes [] 0 Hne) as Hn.
    destruct (f_raised (fill PrependDate notes [] 0)); [discriminate|].
    specialize (Hn eq_refl).
    destruct (collapse (f_working (fill PrependDate notes [] 0)) [])
      as [[|item result]| |] eqn:Ec; try discriminate.
    - apply GroupFacts.collapse_built in Ec;
        [|apply (GroupFacts.fill_wf PrependDate notes [] 0); constructor].
      destruct Ec as (res' & Er & Ew). destruct res'; [|discriminate].
      simpl in Ew. contradiction.
    - eapply Provenance.collapse_conflict, Ec. }
  destruct Hc as [E|(_ & _ & E)]; rewrite E.
  - unfold second_round. destruct s; cbn [dedup_schemes];
      apply Provenance.two_rounds_differ; assumption.
  - congruence.
Qed.

(** Three notes of one second under one title, seqno scheme: the
    caller's dictionary ends with the three numbered paths. *)
Lemma caller_dict_after_failed_round_witness :
  let d := mkDatetime 2023 1 1 10 0 0 None in
  let notes := [("T", [mkNote 0 d d ""; mkNote 1 d d ""; mkNote 2 d d ""])] in
  caller_after (dedup_paths notes seqno_scheme) <> notes
  /\ (caller_after (dedup_paths notes seqno_scheme)
      = f_working (second_round notes seqno_scheme)
      \/ (seqno_scheme = datetime_scheme
          /\ returned (dedup_paths notes seqno_scheme) = Raise dedup_failed
          /\ caller_after (dedup_paths notes seqno_scheme) = [])).
Proof.
  intros d notes. apply caller_dict_after_failed_round.
  - repeat constructor. simpl. tauto.
  - discriminate.
  - reflexivity.
Defined.

(* ================================================================== *)
(** * Further properties *)

(** ** Reading the entries *)

Module ParseFacts.

Lemma occurs_app c a b : occurs c (a ++ b) = occurs c a || occurs c b.
Proof. induction a as [|x a IH]; simpl; [reflexivity|]. now rewrite IH, orb_assoc. Qed.

Lemma translate_length s : String.length (Str.translate TITLE_TO_FILENAME s) = String.length s.
Proof. induction s as [|x s IH]; simpl; [reflexivity | now rewrite IH]. Qed.

Lemma table_not_slash c : Ascii.eqb (TITLE_TO_FILENAME c) "/" = false.
Proof.
  unfold TITLE_TO_FILENAME. destruct (Ascii.eqb_spec c "/"); [reflexivity|].
  destruct (Ascii.eqb_spec c ":"); [reflexivity|]. now apply Ascii.eqb_neq.
Qed.

Lemma table_not_colon c : Ascii.eqb (TITLE_TO_FILENAME c) ":" = false.
Proof.
  unfold TITLE_TO_FILENAME. destruct (Ascii.eqb_spec c "/"); [reflexivity|].
  destruct (Ascii.eqb_spec c ":"); [reflexivity|]. now apply Ascii.eqb_neq.
Qed.

(** The table turns no character into a separator. *)
Lemma table_keeps_sep c : RE_SEP c = false -> RE_SEP (TITLE_TO_FILENAME c) = false.
Proof.
  unfold TITLE_TO_FILENAME. intros H. destruct (Ascii.eqb_spec c "/"); [reflexivity|].
  destruct (Ascii.eqb_spec c ":"); [reflexivity | exact H].
Qed.

Lemma translate_no_slash s : occurs "/" (Str.translate TITLE_TO_FILENAME s) = false.
Proof. induction s as [|x s IH]; simpl; [reflexivity|]. now rewrite table_not_slash, IH. Qed.

Lemma translate_no_colon s : occurs ":" (Str.translate TITLE_TO_FILENAME s) = false.
Proof. induction s as [|x s IH]; simpl; [reflexivity|]. now rewrite table_not_colon, IH. Qed.

Lemma translate_no_sep s :
  has_sep s = false -> has_sep (Str.translate TITLE_TO_FILENAME s) = false.
Proof.
  induction s as [|x s IH]; simpl; [reflexivity|]. intros H.
  apply orb_false_iff in H as [Hx Hs]. now rewrite (table_keeps_sep _ Hx), IH.
Qed.

Lemma has_sep_occurs s :
  has_sep s = false -> occurs "." s = false /\ occurs "010" s = false.
Proof.
  induction s as [|x s IH]; simpl; [auto|]. intros H.
  apply orb_false_iff in H as [Hx Hs]. destruct (IH Hs) as [H1 H2].
  unfold RE_SEP in Hx. apply orb_false_iff in Hx as [Hd Hn]. now rewrite Hd, Hn, H1, H2.
Qed.

(** The title that [split_title] returns is short and holds no
    separator. *)
Lemma split_title_fst text :
  String.length (fst (split_title text)) < MAX_TITLE_LEN
  /\ has_sep (fst (split_title text)) = false.
Proof.
  unfold split_title, re_split.
  destruct (first_match text) as [[a b]|] eqn:E; [|simpl; unfold MAX_TITLE_LEN; split; [lia|reflexivity]].
  destruct (TitleFacts.first_match_some _ _ _ E) as (c & _ & _ & Ha).
  destruct (String.length a <? MAX_TITLE_LEN) eqn:L; simpl.
  - split; [now apply Nat.ltb_lt | exact Ha].
  - unfold MAX_TITLE_LEN. split; [lia | reflexivity].
Qed.

Lemma filter_set_content (entry : Dict.t json) v :
  kept_metadata (Dict.set entry "content" v) = kept_metadata entry.
Proof.
  unfold kept_metadata. induction entry as [|[k w] entry IH]; [reflexivity|].
  cbn [Dict.set]. destruct (String.eqb_spec k "content") as [->|Hn].
  - reflexivity.
  - cbn [filter fst]. now rewrite IH.
Qed.

(** What a turn of the loop that yields has read and built. *)
Lemma parse_entry_inv isoparse h entry path note h' :
  parse_entry isoparse h entry = Ok (path, note, h') ->
  exists text cs ms cr mo,
    Dict.get entry "content" = Some (JStr text)
    /\ Dict.get entry "created_at" = Some (JStr cs) /\ isoparse cs = Ok cr
    /\ Dict.get entry "modified_at" = Some (JStr ms) /\ isoparse ms = Ok mo
    /\ path = Str.translate TITLE_TO_FILENAME (fst (split_title text))
    /\ note = mkNote (length h) cr mo (snd (split_title text))
    /\ h' = (h ++ [kept_metadata entry])%list.
Proof.
  unfold parse_entry, getitem. intros H.
  destruct (Dict.get entry "content") as [c|] eqn:Ec; [|discriminate].
  simpl in H. destruct c; try discriminate. simpl in H.
  destruct (split_title s) as [title rest] eqn:Es.
  rewrite DictFacts.get_set_same in H.
  rewrite !DictFacts.get_set_other in H by discriminate.
  destruct (Dict.get entry "created_at") as [ca|] eqn:Eca; [|discriminate].
  simpl in H. destruct ca; try discriminate. simpl in H.
  destruct (isoparse s0) as [cr|] eqn:Ecr; [|discriminate]. simpl in H.
  destruct (Dict.get entry "modified_at") as [ma|] eqn:Ema; [|discriminate].
  simpl in H. destruct ma; try discriminate. simpl in H.
  destruct (isoparse s1) as [mo|] eqn:Emo; [|discriminate]. simpl in H.
  injection H as <- <- <-.
  exists s, s0, s1, cr, mo. rewrite Es. simpl.
  repeat split; try assumption; try reflexivity.
  rewrite <- (filter_set_content entry (JStr rest)). reflexivity.
Qed.

End ParseFacts.

(** X1.  The path that [parse_infile] yields for an entry is shorter than
    40 characters and holds no slash, no colon, no period and no
    newline. *)
Theorem parse_entry_path_safe :
  forall isoparse (h : heap) (entry : Dict.t json) path note h',
  parse_entry isoparse h entry = Ok (path, note, h') ->
  String.length path < 40
  /\ occurs "/" path = false /\ occurs ":" path = false
  /\ occurs "." path = false /\ occurs "010" path = false.
Proof.
  intros isoparse h entry path note h' H.
  apply ParseFacts.parse_entry_inv in H.
  destruct H as (text & cs & ms & cr & mo & _ & _ & _ & _ & _ & -> & _ & _).
  destruct (ParseFacts.split_title_fst text) as [Hl Hs].
  split; [rewrite ParseFacts.translate_length; exact Hl|].
  split; [apply ParseFacts.translate_no_slash|].
  split; [apply ParseFacts.translate_no_colon|].
  apply ParseFacts.has_sep_occurs, ParseFacts.translate_no_sep, Hs.
Qed.

(** An entry titled with a slash and a colon. *)
Lemma parse_entry_path_safe_witness :
  String.length "a_b- c" < 40
  /\ occurs "/" "a_b- c" = false /\ occurs ":" "a_b- c" = false
  /\ occurs "." "a_b- c" = false /\ occurs "010" "a_b- c" = false.
Proof.
  exact (parse_entry_path_safe Iso.isoparse []
           [("content", JStr "a/b: c. d"); ("created_at", JStr "2023-01-01T10:00:00Z");
            ("modified_at", JStr "2023-01-01T10:00:00Z")]
           "a_b- c" (mkNote 0 buy_milk_time buy_milk_time " d") [[]] eq_refl).
Defined.

(** X2.  The note of an entry gets a dictionary of its own, put at the end
    of the store: it holds the entries whose key is one of the four
    [METADATA_KEYS], with their values and in their order, and nothing
    else; the dictionaries that were in the store stay as they were. *)
Theorem parse_entry_metadata :
  forall isoparse (h : heap) (entry : Dict.t json) path note h',
  parse_entry isoparse h entry = Ok (path, note, h') ->
  metadata note = length h
  /\ h' = (h ++ [kept_metadata entry])%list
  /\ heap_get h' (metadata note) = kept_metadata entry
  /\ (forall l, l < length h -> heap_get h' l = heap_get h l)
  /\ (forall k v, In (k, v) (kept_metadata entry)
                  <-> In (k, v) entry /\ In k METADATA_KEYS).
Proof.
  intros isoparse h entry path note h' H.
  apply ParseFacts.parse_entry_inv in H.
  destruct H as (text & cs & ms & cr & mo & _ & _ & _ & _ & _ & _ & -> & ->).
  simpl. split; [reflexivity|]. split; [reflexivity|]. split; [|split].
  - unfold heap_get. rewrite app_nth2 by lia. now rewrite Nat.sub_diag.
  - intros l Hl. unfold heap_get. now rewrite app_nth1.
  - intros k v. unfold kept_metadata. rewrite filter_In. cbn [fst].
    unfold mem_string. rewrite existsb_exists. split.
    + intros [Hin (x & Hx & E)]. apply String.eqb_eq in E. subst x. auto.
    + intros [Hin Hk]. split; [exact Hin|]. exists k. split; [exact Hk | apply String.eqb_refl].
Qed.

(** An entry with a latitude and a tag. *)
Lemma parse_entry_metadata_witness :
  let entry := [("content", JStr "a. b"); ("created_latitude", JNum "1.5");
                ("tags", JArray "[]"); ("created_at", JStr "2023-01-01T10:00:00Z");
                ("modified_at", JStr "2023-01-01T10:00:00Z")] in
  heap_get [[("created_latitude", JNum "1.5")]] 0 = kept_metadata entry.
Proof.
  intros entry.
  destruct (parse_entry_metadata Iso.isoparse [] entry "a"
              (mkNote 0 buy_milk_time buy_milk_time " b")
              [[("created_latitude", JNum "1.5")]] eq_refl) as (_ & _ & H & _).
  exact H.
Defined.

Module InfileFacts.

Lemma parse_infile_cons isoparse h entry entries :
  parse_infile isoparse h (entry :: entries)
  = match parse_entry isoparse h entry with
    | Ok (path, note, h1) =>
        match parse_infile isoparse h1 entries with
        | Ok (rest, h2) => Ok ((path, note) :: rest, h2)
        | Raise e => Raise e
        end
    | Raise e => Raise e
    end.
Proof.
  simpl. destruct (parse_entry isoparse h entry) as [[[path note] h1]|e]; [|reflexivity].
  simpl. destruct (parse_infile isoparse h1 entries) as [[rest h2]|e]; reflexivity.
Qed.

Lemma parse_infile_layout isoparse entries h pairs h' :
  parse_infile isoparse h entries = Ok (pairs, h') ->
  length pairs = length entries
  /\ map (fun pn => metadata (snd pn)) pairs = seq (length h) (length entries)
  /\ h' = (h ++ map kept_metadata entries)%list
  /\ Forall2 (fun entry pn =>
                exists text,
                  Dict.get entry "content" = Some (JStr text)
                  /\ fst pn = Str.translate TITLE_TO_FILENAME (fst (split_title text))
                  /\ content (snd pn) = snd (split_title text))
             entries pairs.
Proof.
  revert h pairs h'. induction entries as [|entry entries IH]; intros h pairs h'.
  - simpl. intros [= <- <-]. rewrite List.app_nil_r. repeat split; constructor.
  - rewrite parse_infile_cons.
    destruct (parse_entry isoparse h entry) as [[[path note] h1]|e] eqn:E1; [|discriminate].
    destruct (parse_infile isoparse h1 entries) as [[rest h2]|e] eqn:E2; [|discriminate].
    intros [= <- <-].
    destruct (IH _ _ _ E2) as (Hl & Hm & Hh & Hf).
    apply ParseFacts.parse_entry_inv in E1.
    destruct E1 as (text & cs & ms & cr & mo & Hc & _ & _ & _ & _ & -> & -> & ->).
    rewrite length_app in Hm. simpl in Hm. rewrite Nat.add_1_r in Hm.
    simpl. repeat split.
    + now rewrite Hl.
    + now rewrite Hm.
    + rewrite Hh, <- List.app_assoc. reflexivity.
    + constructor; [|exact Hf]. exists text. auto.
Qed.

Lemma read_from_mono isoparse h ext entry pn :
  read_from isoparse h entry pn -> read_from isoparse (h ++ ext)%list entry pn.
Proof.
  intros (text & cs & ms & H1 & H2 & H3 & H4 & H5 & H6 & H7 & H8 & H9).
  exists text, cs, ms. repeat split; try assumption.
  - rewrite length_app. lia.
  - unfold heap_get in *. now rewrite app_nth1.
Qed.

(** Each pair is what its entry was read into, and the store holds
    the dictionary of its note. *)
Lemma parse_infile_notes isoparse entries h pairs h' :
  parse_infile isoparse h entries = Ok (pairs, h') ->
  Forall2 (read_from isoparse h') entries pairs.
Proof.
  revert h pairs h'. induction entries as [|entry entries IH]; intros h pairs h'.
  - simpl. intros [= <- <-]. constructor.
  - rewrite parse_infile_cons.
    destruct (parse_entry isoparse h entry) as [[[path note] h1]|e] eqn:E1; [|discriminate].
    destruct (parse_infile isoparse h1 entries) as [[rest h2]|e] eqn:E2; [|discriminate].
    intros [= <- <-]. constructor; [|now apply (IH h1)].
    destruct (parse_infile_layout _ _ _ _ _ E2) as (_ & _ & -> & _).
    apply read_from_mono.
    apply ParseFacts.parse_entry_inv in E1.
    destruct E1 as (text & cs & ms & cr & mo & Hc & Hca & Hcr & Hma & Hmo & -> & -> & ->).
    exists text, cs, ms. simpl. repeat split; try assumption.
    + rewrite length_app. simpl. lia.
    + unfold heap_get. rewrite app_nth2 by lia. now rewrite Nat.sub_diag.
Qed.



End InfileFacts.

(** X3.  [parse_infile] yields one pair per entry, in the order of the
    entries: the pair of an entry holds its title as path and the rest
    of its text as content.  The notes get the addresses after those
    in use, one each and in order, so no two notes share a [metadata]
    dictionary, and the store grows by the kept metadata of each
    entry. *)
Theorem parse_infile_shape :
  forall isoparse (entries : list (Dict.t json)) (h : heap) pairs h',
  parse_infile isoparse h entries = Ok (pairs, h') ->
  length pairs = length entries
  /\ map (fun pn => metadata (snd pn)) pairs = seq (length h) (length entries)
  /\ NoDup (map (fun pn => metadata (snd pn)) pairs)
  /\ h' = (h ++ map kept_metadata entries)%list
  /\ Forall2 (fun entry pn =>
                exists text,
                  Dict.get entry "content" = Some (JStr text)
                  /\ fst pn = Str.translate TITLE_TO_FILENAME (fst (split_title text))
                  /\ content (snd pn) = snd (split_title text))
             entries pairs.
Proof.
  intros isoparse entries h pairs h' Hp.
  destruct (InfileFacts.parse_infile_layout _ _ _ _ _ Hp) as (Hl & Hm & Hh & Hf).
  repeat split; try assumption. rewrite Hm. apply seq_NoDup.
Qed.

(** Two entries, the second without a title. *)
Lemma parse_infile_shape_witness :
  map (fun pn : string * Note => metadata (snd pn))
      [("a", mkNote 0 buy_milk_time buy_milk_time " b");
       ("", mkNote 1 buy_milk_time buy_milk_time "c")]
  = seq 0 2.
Proof.
  destruct (parse_infile_shape Iso.isoparse
              [[("content", JStr "a. b"); ("created_at", JStr "2023-01-01T10:00:00Z");
                ("modified_at", JStr "2023-01-01T10:00:00Z")];
               [("content", JStr "c"); ("created_at", JStr "2023-01-01T10:00:00Z");
                ("modified_at", JStr "2023-01-01T10:00:00Z")]]
              []
              [("a", mkNote 0 buy_milk_time buy_milk_time " b");
               ("", mkNote 1 buy_milk_time buy_milk_time "c")]
              [[]; []] eq_refl) as (_ & H & _).
  exact H.
Defined.

(** X4.  An entry without [content] raises [KeyError] for that key, one
    whose [content] is no string raises [TypeError]; with a string
    there, a missing [created_at] or [modified_at] raises [KeyError]
    for it, and what [isoparse] raises on either timestamp is raised
    by the turn, the creation time read first. *)
Theorem parse_entry_errors :
  forall isoparse (h : heap) (entry : Dict.t json),
  (Dict.get entry "content" = None ->
     parse_entry isoparse h entry = Raise (KeyError "content"))
  /\ (forall v, Dict.get entry "content" = Some v -> as_str v = Raise TypeError ->
        parse_entry isoparse h entry = Raise TypeError)
  /\ (forall text, Dict.get entry "content" = Some (JStr text) ->
        (Dict.get entry "created_at" = None ->
           parse_entry isoparse h entry = Raise (KeyError "created_at"))
        /\ (forall cs e, Dict.get entry "created_at" = Some (JStr cs) ->
              isoparse cs = Raise e -> parse_entry isoparse h entry = Raise e)
        /\ (forall cs cr, Dict.get entry "created_at" = Some (JStr cs) ->
              isoparse cs = Ok cr ->
              (Dict.get entry "modified_at" = None ->
                 parse_entry isoparse h entry = Raise (KeyError "modified_at"))
              /\ (forall ms e, Dict.get entry "modified_at" = Some (JStr ms) ->
                    isoparse ms = Raise e -> parse_entry isoparse h entry = Raise e))).
Proof.
  intros isoparse h entry. unfold parse_entry, getitem. split; [|split].
  - intros ->. reflexivity.
  - intros v -> Hv. simpl. rewrite Hv. reflexivity.
  - intros text ->. simpl. destruct (split_title text) as [title rest].
    rewrite !DictFacts.get_set_other by discriminate. split; [|split].
    + intros ->. reflexivity.
    + intros cs e -> Hc. simpl. rewrite Hc. reflexivity.
    + intros cs cr -> Hc. simpl. rewrite Hc. simpl. split.
      * intros ->. reflexivity.
      * intros ms e -> Hm. simpl. rewrite Hm. reflexivity.
Qed.

(** An entry whose creation time [Iso.isoparse] refuses. *)
Lemma parse_entry_errors_witness :
  parse_entry Iso.isoparse []
    [("content", JStr "a. b"); ("created_at", JStr "yesterday");
     ("modified_at", JStr "2023-01-01T10:00:00Z")]
  = Raise ValueError.
Proof.
  destruct (parse_entry_errors Iso.isoparse []
              [("content", JStr "a. b"); ("created_at", JStr "yesterday");
               ("modified_at", JStr "2023-01-01T10:00:00Z")]) as (_ & _ & H).
  destruct (H "a. b" eq_refl) as (_ & H' & _).
  exact (H' "yesterday" ValueError eq_refl eq_refl).
Defined.

(** X5.  [parse_infile] stops at the first entry that raises: when the
    entries before it are read and its turn raises [e], the whole run
    raises [e], whatever follows. *)
Theorem parse_infile_first_error :
  forall isoparse (pre : list (Dict.t json)) (h : heap) pairs h1 bad post e,
  parse_infile isoparse h pre = Ok (pairs, h1) ->
  parse_entry isoparse h1 bad = Raise e ->
  parse_infile isoparse h (pre ++ bad :: post) = Raise e.
Proof.
  intros isoparse pre. induction pre as [|entry pre IH]; intros h pairs h1 bad post e.
  - simpl. intros [= <- <-] Hb. now rewrite Hb.
  - rewrite InfileFacts.parse_infile_cons. intros Hp Hb.
    change ((entry :: pre) ++ bad :: post)%list with (entry :: (pre ++ bad :: post))%list.
    rewrite InfileFacts.parse_infile_cons.
    destruct (parse_entry isoparse h entry) as [[[path note] h0]|e0]; [|discriminate].
    destruct (parse_infile isoparse h0 pre) as [[rest h2]|e0] eqn:E2; [|discriminate].
    injection Hp as <- <-. now rewrite (IH _ _ _ bad post e E2 Hb).
Qed.

(** A good entry, one without [content], and a third. *)
Lemma parse_infile_first_error_witness :
  parse_infile Iso.isoparse []
    [[("content", JStr "a. b"); ("created_at", JStr "2023-01-01T10:00:00Z");
      ("modified_at", JStr "2023-01-01T10:00:00Z")];
     [("created_at", JStr "2023-01-01T10:00:00Z")];
     []]
  = Raise (KeyError "content").
Proof.
  exact (parse_infile_first_error Iso.isoparse
           [[("content", JStr "a. b"); ("created_at", JStr "2023-01-01T10:00:00Z");
             ("modified_at", JStr "2023-01-01T10:00:00Z")]]
           [] [("a", mkNote 0 buy_milk_time buy_milk_time " b")] [[]]
           [("created_at", JStr "2023-01-01T10:00:00Z")] [[]] (KeyError "content")
           eq_refl eq_refl).
Defined.

(* ================================================================== *)
(** ** Grouping the notes *)

Module GroupingFacts.

Lemma get_dd_extend_same (d : grouping) k vs :
  Dict.get (dd_extend d k vs) k
  = Some (match Dict.get d k with Some l => l ++ vs | None => vs end)%list.
Proof.
  induction d as [|[k0 l] d IH]; simpl.
  - now rewrite String.eqb_refl.
  - destruct (String.eqb_spec k0 k) as [->|Hn]; simpl.
    + now rewrite String.eqb_refl.
    + destruct (String.eqb_spec k0 k); [contradiction | exact IH].
Qed.

Lemma dd_extend_groups_nonempty (d : grouping) k vs :
  vs <> [] -> groups_nonempty d -> groups_nonempty (dd_extend d k vs).
Proof.
  unfold groups_nonempty. intros Hv. induction d as [|[k0 l] d IH]; simpl; intros H.
  - repeat constructor. exact Hv.
  - inversion H as [|? ? Hl H']; subst. destruct (String.eqb k0 k).
    + constructor; [|exact H']. simpl. destruct l; [now simpl | discriminate].
    + constructor; [exact Hl | now apply IH].
Qed.

Lemma fold_wf pairs g : Dict.wf g -> Dict.wf (fold_left add_pair pairs g).
Proof.
  revert g. induction pairs as [|pn pairs IH]; intros g H; simpl; [exact H|].
  apply IH, GroupFacts.dd_extend_wf, H.
Qed.

Lemma fold_nonempty pairs g :
  groups_nonempty g -> groups_nonempty (fold_left add_pair pairs g).
Proof.
  revert g. induction pairs as [|pn pairs IH]; intros g H; simpl; [exact H|].
  apply IH, dd_extend_groups_nonempty; [discriminate | exact H].
Qed.

Lemma fold_notes pairs g :
  Permutation (all_notes (fold_left add_pair pairs g)) (all_notes g ++ map snd pairs).
Proof.
  revert g. induction pairs as [|pn pairs IH]; intros g; simpl.
  - now rewrite List.app_nil_r.
  - rewrite IH. unfold add_pair, dd_append. rewrite GroupFacts.dd_extend_notes.
    now rewrite <- List.app_assoc.
Qed.

Lemma fold_get pairs g k :
  Dict.get (fold_left add_pair pairs g) k
  = match Dict.get g k, notes_under k pairs with
    | None, [] => None
    | None, l => Some l
    | Some l0, l => Some (l0 ++ l)%list
    end.
Proof.
  revert g. induction pairs as [|[p n] pairs IH]; intros g.
  - simpl. destruct (Dict.get g k); [now rewrite List.app_nil_r | reflexivity].
  - cbn [fold_left]. rewrite IH. unfold add_pair, dd_append, notes_under.
    cbn [fst snd filter]. destruct (String.eqb_spec p k) as [->|Hn].
    + rewrite get_dd_extend_same. cbn [map snd].
      destruct (Dict.get g k); [now rewrite <- List.app_assoc|].
      simpl. now destruct (map snd _).
    + now rewrite EmptyKey.get_dd_extend_other.
Qed.

End GroupingFacts.

(** X6.  The grouping that [main] builds from the pairs of [parse_infile]
    has each path once and no empty group; the group of a path holds
    the notes that came with it, in the order they came, and a path
    that came with no note is no key.  Together the groups hold the
    notes that were read. *)
Theorem group_notes_spec : forall pairs : list (string * Note),
  Dict.wf (group_notes pairs)
  /\ groups_nonempty (group_notes pairs)
  /\ (forall k, Dict.get (group_notes pairs) k
                = match notes_under k pairs with
                  | [] => None
                  | l => Some l
                  end)
  /\ Permutation (all_notes (group_notes pairs)) (map snd pairs)
  /\ (pairs <> [] -> group_notes pairs <> []).
Proof.
  intros pairs.
  change (group_notes pairs) with (fold_left add_pair pairs []).
  split; [apply GroupingFacts.fold_wf; constructor|].
  split; [apply GroupingFacts.fold_nonempty; constructor|].
  split; [intros k; now rewrite GroupingFacts.fold_get|].
  split; [now rewrite GroupingFacts.fold_notes|].
  intros Hne E.
  pose proof (GroupingFacts.fold_notes pairs []) as Hp. rewrite E in Hp.
  apply Permutation_length in Hp. simpl in Hp. rewrite length_map in Hp.
  destruct pairs; [congruence | discriminate].
Qed.

(* ================================================================== *)
(** ** More on [dedup_paths] *)

Module OutcomeFacts.

Lemma fill_dups_nonempty_groups fn path dups w n :
  groups_nonempty w -> groups_nonempty (f_working (fill_dups fn path dups w n)).
Proof.
  revert w n. induction dups as [|dup dups IH]; intros w n H; simpl; [exact H|].
  destruct (call fn w path dup); simpl; [|exact H].
  apply IH, GroupingFacts.dd_extend_groups_nonempty; [discriminate | exact H].
Qed.

Lemma fill_nonempty_groups fn notes w n :
  groups_nonempty notes -> groups_nonempty w ->
  groups_nonempty (f_working (fill fn notes w n)).
Proof.
  revert w n. induction notes as [|[path dups] notes IH]; intros w n Hn Hw; simpl; [exact Hw|].
  inversion Hn as [|? ? Hd Hn']; subst. simpl in Hd.
  destruct (1 <? length dups).
  - pose proof (fill_dups_nonempty_groups fn path dups w n Hw) as H'.
    destruct (f_raised (fill_dups fn path dups w n)); [exact H' | now apply IH].
  - apply IH; [exact Hn'|]. now apply GroupingFacts.dd_extend_groups_nonempty.
Qed.

Lemma collapse_nonempty_groups w acc : groups_nonempty w -> collapse w acc <> EmptyGroup.
Proof.
  revert acc. induction w as [|[k l] w IH]; intros acc H; simpl; [discriminate|].
  inversion H as [|? ? Hl H']; subst. simpl in Hl.
  destruct (1 <? length l); [discriminate|].
  destruct l; [contradiction | now apply IH].
Qed.

Lemma fill_dups_raised fn path dups w n e :
  f_raised (fill_dups fn path dups w n) = Some e -> e = seqno_exhausted path.
Proof.
  revert w n. induction dups as [|dup dups IH]; intros w n; simpl; [discriminate|].
  destruct (call fn w path dup) as [s|e0] eqn:Ec; simpl; [apply IH|].
  intros [= <-]. destruct fn; simpl in Ec; try discriminate.
  unfold _append_seqno in Ec.
  destruct (SeqnoFacts.seqno_loop_cases w path 999 1) as [(k & _ & Hk & _)|Hr]; congruence.
Qed.

Lemma fill_raised fn notes w n e :
  f_raised (fill fn notes w n) = Some e ->
  exists path, In path (Dict.keys notes) /\ e = seqno_exhausted path.
Proof.
  revert w n. induction notes as [|[path dups] notes IH]; intros w n; simpl; [discriminate|].
  destruct (1 <? length dups).
  - destruct (f_raised (fill_dups fn path dups w n)) eqn:E.
    + rewrite E. intros [= <-]. exists path. split; [now left|].
      eapply fill_dups_raised, E.
    + intros H. destruct (IH _ _ H) as (p & Hp & He). exists p. auto.
  - intros H. destruct (IH _ _ H) as (p & Hp & He). exists p. auto.
Qed.

Lemma rounds_outcomes fns s notes working n :
  notes <> working -> rd s working = [] -> groups_nonempty (rd s notes) ->
  (exists res, returned (rounds fns s notes working n) = Ok res /\ res <> [])
  \/ returned (rounds fns s notes working n) = Raise dedup_failed
  \/ exists path, returned (rounds fns s notes working n) = Raise (seqno_exhausted path).
Proof.
  revert s notes working n.
  induction fns as [|fn fns IH]; intros s notes working n Hneq Hw Hg; simpl;
    [right; now left|].
  rewrite Hw.
  pose proof (fill_nonempty_groups fn (rd s notes) [] n Hg (Forall_nil _)) as HgW.
  pose proof (fill_raised fn (rd s notes) [] n) as Hr.
  destruct (f_raised (fill fn (rd s notes) [] n)) as [e|].
  - destruct (Hr e eq_refl) as (p & _ & ->). right. right. now exists p.
  - set (W := f_working (fill fn (rd s notes) [] n)) in *.
    assert (Hrec : let o := rounds fns (wr (wr s working W) notes []) working notes
                                   (f_calls (fill fn (rd s notes) [] n)) in
                   (exists res, returned o = Ok res /\ res <> [])
                   \/ returned o = Raise dedup_failed
                   \/ exists path, returned o = Raise (seqno_exhausted path)).
    { apply IH; [congruence | apply GroupFacts.rd_wr_same |].
      rewrite GroupFacts.rd_wr_other, GroupFacts.rd_wr_same by congruence. exact HgW. }
    pose proof (collapse_nonempty_groups W [] HgW) as Hc.
    destruct (collapse W []) as [[|item result]| |]; [exact Hrec | | exact Hrec | congruence].
    left. exists (item :: result). split; [reflexivity | discriminate].
Qed.

End OutcomeFacts.

(** X7.  On a grouping without an empty group, [dedup_paths] ends in one of
    three ways: it returns a mapping, which is never empty; it raises
    "Could not dedup notes successfully, aborting"; or it raises
    "could not dedup path" for some path.  In particular it never
    raises [IndexError]. *)
Theorem dedup_paths_outcomes : forall (notes : grouping) (s : scheme),
  groups_nonempty notes ->
  ((exists res, returned (dedup_paths notes s) = Ok res /\ res <> [])
   \/ returned (dedup_paths notes s) = Raise dedup_failed
   \/ exists path, returned (dedup_paths notes s) = Raise (seqno_exhausted path))
  /\ returned (dedup_paths notes s) <> Raise IndexError.
Proof.
  intros notes s Hg.
  assert (H : (exists res, returned (dedup_paths notes s) = Ok res /\ res <> [])
              \/ returned (dedup_paths notes s) = Raise dedup_failed
              \/ exists path, returned (dedup_paths notes s) = Raise (seqno_exhausted path))
    by (apply OutcomeFacts.rounds_outcomes; [discriminate | reflexivity | exact Hg]).
  split; [exact H|].
  destruct H as [(res & -> & _)|[->|(p & ->)]]; discriminate.
Qed.

(** Three notes of one second under one title. *)
Lemma dedup_paths_outcomes_witness :
  let n := mkNote 0 buy_milk_time buy_milk_time "" in
  returned (dedup_paths [("T", [n; n; n])] seqno_scheme) <> Raise IndexError.
Proof.
  intros n. apply dedup_paths_outcomes. repeat constructor. discriminate.
Defined.

Module CharsetFacts.

Lemma occurs_rstrip c s : occurs c s = false -> occurs c (Str.rstrip s) = false.
Proof.
  induction s as [|x t IH]; [reflexivity|]. simpl. intros H.
  apply orb_false_iff in H as [Hx Ht]. specialize (IH Ht).
  destruct (Str.rstrip t) as [|y r].
  - destruct (Str.isspace x); [reflexivity|]. simpl. now rewrite Hx.
  - cbn [occurs]. cbn [occurs] in IH. now rewrite Hx, IH.
Qed.

Lemma occurs_removeprefix c s p :
  occurs c s = false -> occurs c (Str.removeprefix s p) = false.
Proof.
  intros H. destruct (StrFacts.removeprefix_cases s p) as [E|E]; [|now rewrite E].
  rewrite E, ParseFacts.occurs_app in H. now apply orb_false_iff in H as [_ H].
Qed.

Lemma stamp_char_digit c :
  stamp_char c = false -> (48 <=? nat_of_ascii c) && (nat_of_ascii c <=? 57) = false.
Proof. unfold stamp_char. intros H. now repeat (apply orb_false_iff in H as [H _]). Qed.

Lemma occurs_digits c s :
  stamp_char c = false -> Str.all_digits s = true -> occurs c s = false.
Proof.
  intros Hc. induction s as [|x t IH]; [reflexivity|].
  cbn [Str.all_digits occurs]. cbv zeta. intros H.
  apply andb_true_iff in H as [Hx Ht]. rewrite (IH Ht), orb_false_r.
  apply Ascii.eqb_neq. intros ->. rewrite (stamp_char_digit _ Hc) in Hx. discriminate.
Qed.

Lemma occurs_of_nat c n : stamp_char c = false -> occurs c (Str.of_nat n) = false.
Proof. intros Hc. apply occurs_digits; [exact Hc | apply StrFacts.uint_digits]. Qed.

Lemma occurs_zfill c w n : stamp_char c = false -> occurs c (Str.zfill w n) = false.
Proof.
  intros Hc. unfold Str.zfill. rewrite ParseFacts.occurs_app, (occurs_of_nat _ _ Hc), orb_false_r.
  apply occurs_digits; [exact Hc|].
  induction (w - String.length (Str.of_nat n)) as [|k IH]; [reflexivity | exact IH].
Qed.

Lemma stamp_char_hyphen c : stamp_char c = false -> Ascii.eqb "-" c = false.
Proof.
  unfold stamp_char. intros H. apply orb_false_iff in H as [H _].
  apply orb_false_iff in H as [_ H]. now rewrite Ascii.eqb_sym.
Qed.

Lemma stamp_char_space c : stamp_char c = false -> Ascii.eqb " " c = false.
Proof.
  unfold stamp_char. intros H. apply orb_false_iff in H as [_ H]. now rewrite Ascii.eqb_sym.
Qed.

Lemma occurs_format_date c d :
  stamp_char c = false -> occurs c (Datetime.format_date d) = false.
Proof.
  intros Hc. unfold Datetime.format_date.
  rewrite !ParseFacts.occurs_app, !(occurs_zfill _ _ _ Hc). cbn [occurs].
  now rewrite (stamp_char_hyphen _ Hc).
Qed.

Lemma occurs_format_datetime c d :
  stamp_char c = false -> occurs c (Datetime.format_datetime d) = false.
Proof.
  intros Hc. unfold Datetime.format_datetime, Datetime.format_time.
  rewrite !ParseFacts.occurs_app, (occurs_format_date _ _ Hc), !(occurs_zfill _ _ _ Hc). cbn [occurs].
  now rewrite (stamp_char_hyphen _ Hc), (stamp_char_space _ Hc).
Qed.

(** A strategy adds only digits, hyphens and spaces to a path. *)
Lemma occurs_call c fn w path note s :
  stamp_char c = false -> occurs c path = false ->
  call fn w path note = Ok s -> occurs c (Str.rstrip s) = false.
Proof.
  intros Hc Hp H. apply occurs_rstrip. destruct fn; simpl in H.
  - injection H as <-. unfold _prepend_date.
    rewrite !ParseFacts.occurs_app, (occurs_format_date _ _ Hc), Hp. cbn [occurs].
    now rewrite (stamp_char_space _ Hc).
  - injection H as <-. unfold _prepend_datetime.
    rewrite !ParseFacts.occurs_app, (occurs_format_datetime _ _ Hc),
      (occurs_removeprefix _ _ _ Hp). cbn [occurs].
    now rewrite (stamp_char_space _ Hc).
  - unfold _append_seqno in H. apply EmptyKey.seqno_loop_ok in H as [j ->].
    unfold with_seqno. rewrite !ParseFacts.occurs_app, Hp, (occurs_of_nat _ _ Hc). cbn [occurs].
    now rewrite (stamp_char_space _ Hc).
Qed.

Lemma dd_extend_free c (w : grouping) k vs :
  occurs c k = false -> free_of c w -> free_of c (dd_extend w k vs).
Proof.
  unfold free_of. intros Hk Hw k' Hin. rewrite GroupFacts.dd_extend_keys in Hin.
  destruct (Dict.mem k w); [now apply Hw|].
  apply in_app_or in Hin as [Hin|[<-|[]]]; [now apply Hw | exact Hk].
Qed.

Lemma fill_dups_free c fn path dups w n :
  stamp_char c = false -> occurs c path = false -> free_of c w ->
  free_of c (f_working (fill_dups fn path dups w n)).
Proof.
  intros Hc Hp. revert w n. induction dups as [|dup dups IH]; intros w n Hw; simpl; [exact Hw|].
  destruct (call fn w path dup) as [s|e] eqn:Ec; simpl; [|exact Hw].
  apply IH, dd_extend_free; [|exact Hw]. eapply occurs_call; eassumption.
Qed.

Lemma fill_free c fn notes w n :
  stamp_char c = false -> free_of c notes -> free_of c w ->
  free_of c (f_working (fill fn notes w n)).
Proof.
  intros Hc. revert w n. induction notes as [|[path dups] notes IH]; intros w n Hn Hw; simpl;
    [exact Hw|].
  assert (Hp : occurs c path = false) by (apply Hn; now left).
  assert (Hn' : free_of c notes) by (intros k Hk; apply Hn; now right).
  destruct (1 <? length dups).
  - pose proof (fill_dups_free c fn path dups w n Hc Hp Hw) as H'.
    destruct (f_raised (fill_dups fn path dups w n)); [exact H' | now apply IH].
  - apply IH; [exact Hn'|]. now apply dd_extend_free.
Qed.

Lemma rounds_free c fns s notes working n res :
  stamp_char c = false ->
  notes <> working -> rd s working = [] -> free_of c (rd s notes) ->
  returned (rounds fns s notes working n) = Ok res ->
  forall k, In k (Dict.keys res) -> occurs c k = false.
Proof.
  intros Hc. revert s notes working n.
  induction fns as [|fn fns IH]; intros s notes working n Hneq Hw Hf; simpl; [discriminate|].
  rewrite Hw.
  pose proof (fill_free c fn (rd s notes) [] n Hc Hf) as HfW.
  pose proof (GroupFacts.fill_wf fn (rd s notes) [] n (NoDup_nil _)) as HwfW.
  destruct (f_raised (fill fn (rd s notes) [] n)); [discriminate|].
  assert (HfW' : free_of c (f_working (fill fn (rd s notes) [] n)))
    by (apply HfW; intros k []).
  set (W := f_working (fill fn (rd s notes) [] n)) in *.
  assert (Hrec : returned (rounds fns (wr (wr s working W) notes []) working notes
                             (f_calls (fill fn (rd s notes) [] n))) = Ok res ->
                 forall k, In k (Dict.keys res) -> occurs c k = false).
  { apply IH; [congruence | apply GroupFacts.rd_wr_same |].
    rewrite GroupFacts.rd_wr_other, GroupFacts.rd_wr_same by congruence. exact HfW'. }
  destruct (collapse W []) as [[|item result]| |] eqn:Ec; [exact Hrec | | exact Hrec | discriminate].
  simpl. intros [= <-].
  apply GroupFacts.collapse_built in Ec; [|exact HwfW].
  destruct Ec as (res' & -> & EW). simpl.
  intros k Hk. apply HfW'. rewrite EW, GroupFacts.keys_singletons. exact Hk.
Qed.

End CharsetFacts.

(** X8.  [dedup_paths] puts only digits, hyphens and spaces into a path:
    a character that is none of these and occurs in no key of the
    grouping occurs in no key of the mapping returned.  So keys without
    a slash, a colon or a period stay without. *)
Theorem dedup_paths_keys_charset :
  forall (c : ascii) (notes : grouping) (s : scheme) (res : Dict.t Note),
  stamp_char c = false ->
  (forall k, In k (Dict.keys notes) -> occurs c k = false) ->
  returned (dedup_paths notes s) = Ok res ->
  forall k, In k (Dict.keys res) -> occurs c k = false.
Proof.
  intros c notes s res Hc Hn H. unfold dedup_paths in H.
  exact (CharsetFacts.rounds_free c (dedup_schemes s) (mkStore notes []) CallerDict LocalDict
           0 res Hc ltac:(discriminate) eq_refl Hn H).
Qed.

(** Two notes of one second titled [T]: no period in the keys
    returned. *)
Lemma dedup_paths_keys_charset_witness :
  occurs "." "2023-01-01 10-00-00  T 2" = false.
Proof.
  apply (dedup_paths_keys_charset "."
           [("T", [mkNote 0 buy_milk_time buy_milk_time "";
                   mkNote 0 buy_milk_time buy_milk_time ""])]
           datetime_scheme
           [("2023-01-01 10-00-00  T 1", mkNote 0 buy_milk_time buy_milk_time "");
            ("2023-01-01 10-00-00  T 2", mkNote 0 buy_milk_time buy_milk_time "")]).
  - reflexivity.
  - intros k Hk. simpl in Hk. destruct Hk as [<-|[]]. reflexivity.
  - reflexivity.
  - simpl. auto.
Defined.

Module FirstRound.

Lemma singletons_app (a b : Dict.t Note) :
  singletons (a ++ b)%list = (singletons a ++ singletons b)%list.
Proof. unfold singletons. apply map_app. Qed.

Lemma keys_app (V : Type) (a b : Dict.t V) :
  Dict.keys (a ++ b)%list = (Dict.keys a ++ Dict.keys b)%list.
Proof. unfold Dict.keys. apply map_app. Qed.

Lemma NoDup_app_l (A : Type) (a b : list A) : NoDup (a ++ b) -> NoDup a.
Proof.
  induction a as [|x a IH]; simpl; intros H; [constructor|].
  inversion H as [|? ? Hn H']; subst. constructor; [|now apply IH].
  intros Hin. apply Hn, in_or_app. now left.
Qed.

Lemma fill_dups_dated (f : Note -> string) path dups (w : grouping) n :
  (forall dup, Str.rstrip (_prepend_date path dup) = f dup) ->
  NoDup (Dict.keys w ++ map f dups) ->
  fill_dups PrependDate path dups w n
  = mkFilled (w ++ singletons (map (fun dup => (f dup, dup)) dups))%list
             (n + length dups) None.
Proof.
  intros Hf. revert w n. induction dups as [|dup dups IH]; intros w n Hnd.
  - simpl. now rewrite List.app_nil_r, Nat.add_0_r.
  - cbn [fill_dups call]. rewrite Hf. unfold dd_append.
    rewrite GroupFacts.dd_extend_fresh
      by (simpl in Hnd; apply NoDup_remove_2 in Hnd; intros I; apply Hnd, in_or_app; now left).
    rewrite IH.
    + simpl. rewrite <- List.app_assoc. simpl. f_equal. lia.
    + rewrite keys_app, <- List.app_assoc. exact Hnd.
Qed.

Lemma fill_dated (g w : grouping) n :
  groups_nonempty g ->
  NoDup (Dict.keys w ++ Dict.keys (dated g)) ->
  fill PrependDate g w n
  = mkFilled (w ++ singletons (dated g))%list (n + first_round_calls g) None.
Proof.
  revert w n. induction g as [|[path dups] g IH]; intros w n Hg Hnd.
  - simpl. now rewrite List.app_nil_r, Nat.add_0_r.
  - inversion Hg as [|? ? Hd Hg']; subst. simpl in Hd.
    unfold dated in Hnd. cbn [flat_map fst snd] in Hnd. fold (dated g) in Hnd.
    unfold dated, first_round_calls. cbn [flat_map map list_sum fst snd fill].
    fold (dated g). fold (first_round_calls g).
    destruct (1 <? length dups) eqn:El.
    + rewrite keys_app, List.app_assoc in Hnd.
      rewrite (fill_dups_dated (fun dup => Str.rstrip (_prepend_date path dup)) path dups w n).
      * cbn [f_raised f_working f_calls].
        rewrite IH; [|exact Hg'|].
        -- rewrite singletons_app, <- List.app_assoc. f_equal.
           replace (list_sum (length dups :: _))
             with (length dups + first_round_calls g) by reflexivity. lia.
        -- rewrite keys_app, GroupFacts.keys_singletons. exact Hnd.
      * reflexivity.
      * apply NoDup_app_l in Hnd. unfold Dict.keys in Hnd at 2. rewrite map_map in Hnd.
        exact Hnd.
    + apply Nat.ltb_ge in El.
      destruct dups as [|dup [|? ?]]; [contradiction | | simpl in El; lia].
      cbn [map] in *. cbn [app] in Hnd.
      rewrite GroupFacts.dd_extend_fresh
        by (apply NoDup_remove_2 in Hnd; intros I; apply Hnd, in_or_app; now left).
      rewrite IH; [|exact Hg'|].
      * cbn [singletons map app fst snd]. rewrite <- List.app_assoc. reflexivity.
      * rewrite keys_app, <- List.app_assoc. exact Hnd.
Qed.

Lemma dated_nonempty (g : grouping) : g <> [] -> groups_nonempty g -> dated g <> [].
Proof.
  destruct g as [|[path dups] g]; [congruence|]. intros _ Hg.
  inversion Hg as [|? ? Hd _]; subst. simpl in Hd.
  unfold dated. cbn [flat_map fst snd].
  destruct dups as [|dup dups]; [contradiction|].
  destruct (1 <? length (dup :: dups)); discriminate.
Qed.

End FirstRound.

(** X9.  When the keys of the first round differ from one another — for
    each note of a colliding group its creation date, a space and the
    path, trailing whitespace stripped, and for every other note its
    path — [dedup_paths] returns after that round: each note under
    that key, in the order of the grouping, with one call of
    [_prepend_date] per note of a colliding group and the caller's
    dictionary untouched.  The grouping must have a key and no empty
    group. *)
Theorem dedup_paths_first_round : forall (notes : grouping) (s : scheme),
  notes <> [] -> groups_nonempty notes ->
  NoDup (Dict.keys (dated notes)) ->
  dedup_paths notes s = mkOutcome (Ok (dated notes)) notes (first_round_calls notes).
Proof.
  intros notes s Hne Hg Hnd.
  assert (Hround : forall fns,
             rounds (PrependDate :: fns) (mkStore notes []) CallerDict LocalDict 0
             = mkOutcome (Ok (dated notes)) notes (first_round_calls notes)).
  { intros fns. cbn [rounds rd wr caller_dict local_dict].
    rewrite (FirstRound.fill_dated notes [] 0 Hg Hnd).
    cbn [f_raised f_working f_calls app].
    rewrite GroupFacts.collapse_singletons by exact Hnd.
    pose proof (FirstRound.dated_nonempty notes Hne Hg) as Hd.
    cbn [app]. destruct (dated notes); [contradiction | reflexivity]. }
  unfold dedup_paths. destruct s; apply Hround.
Qed.

(** Two notes titled [Meeting notes], of 1 and 2 January 2023, and a
    third titled [Other]. *)
Lemma dedup_paths_first_round_witness :
  let a := mkNote 0 (mkDatetime 2023 1 1 9 0 0 None) (mkDatetime 2023 1 1 9 0 0 None) "" in
  let b := mkNote 1 (mkDatetime 2023 1 2 9 0 0 None) (mkDatetime 2023 1 2 9 0 0 None) "" in
  dedup_paths [("Meeting notes", [a; b]); ("Other", [a])] datetime_scheme
  = mkOutcome (Ok [("2023-01-01 Meeting notes", a); ("2023-01-02 Meeting notes", b);
                   ("Other", a)])
              [("Meeting notes", [a; b]); ("Other", [a])] 2.
Proof.
  intros a b.
  apply (dedup_paths_first_round [("Meeting notes", [a; b]); ("Other", [a])] datetime_scheme).
  - discriminate.
  - repeat constructor; discriminate.
  - repeat constructor; simpl; intuition discriminate.
Defined.

(* ================================================================== *)
(** ** Writing the files *)

Module FsFacts.

Lemma path_eqb_true p q : path_eqb p q = true <-> p = q.
Proof. unfold path_eqb. destruct (list_eq_dec string_dec p q); split; congruence. Qed.


Lemma path_eqb_false p q : path_eqb p q = false <-> p <> q.
Proof. unfold path_eqb. destruct (list_eq_dec string_dec p q); split; congruence. Qed.


Lemma get_put_other fs p q f : p <> q -> fs_get (fs_put fs p f) q = fs_get fs q.
Proof.
  intros Hn. induction fs as [|[r g] fs IH]; simpl.
  - apply path_eqb_false in Hn. now rewrite Hn.
  - destruct (path_eqb r p) eqn:E; simpl.
    + apply path_eqb_true in E. subst r.
      apply path_eqb_false in Hn. now rewrite Hn.
    + destruct (path_eqb r q); [reflexivity | exact IH].
Qed.

Lemma put_fresh fs p f : fs_get fs p = None -> fs_put fs p f = (fs ++ [(p, f)])%list.
Proof.
  induction fs as [|[q g] fs IH]; simpl; [reflexivity|].
  destruct (path_eqb q p); [discriminate|]. intros H. now rewrite IH.
Qed.






(** *** Writing several notes *)

Lemma write_all_cons p n ts h fs :
  write_all ((p, n) :: ts) h fs
  = write_all ts (fst (write_note p n h fs)) (snd (write_note p n h fs)).
Proof. reflexivity. Qed.

Lemma write_all_fs_frame ts h fs q :
  ~ In q (map fst ts) -> fs_get (snd (write_all ts h fs)) q = fs_get fs q.
Proof.
  revert h fs. induction ts as [|[p n] ts IH]; intros h fs Hq; [reflexivity|].
  rewrite write_all_cons, IH by (intros I; apply Hq; now right).
  unfold write_note. simpl. apply get_put_other. intros ->. apply Hq. now left.
Qed.

Lemma write_all_heap_frame ts h fs l :
  ~ In l (map (fun pn => metadata (snd pn)) ts) ->
  heap_get (fst (write_all ts h fs)) l = heap_get h l.
Proof.
  revert h fs. induction ts as [|[p n] ts IH]; intros h fs Hl; [reflexivity|].
  rewrite write_all_cons, IH by (intros I; apply Hl; now right).
  unfold write_note. simpl. apply HeapFacts.heap_get_set_other.
  intros E. apply Hl. left. simpl. congruence.
Qed.

Lemma write_all_heap_length ts h fs : length (fst (write_all ts h fs)) = length h.
Proof.
  revert h fs. induction ts as [|[p n] ts IH]; intros h fs; [reflexivity|].
  rewrite write_all_cons, IH. unfold write_note. simpl. apply HeapFacts.heap_set_length.
Qed.


(** New files for paths that differ: one more file each. *)
Lemma write_all_length ts h fs :
  NoDup (map fst ts) ->
  (forall p, In p (map fst ts) -> fs_get fs p = None) ->
  length (snd (write_all ts h fs)) = length fs + length ts.
Proof.
  revert h fs. induction ts as [|[p n] ts IH]; intros h fs Hp Hnew.
  - simpl. lia.
  - simpl in Hp. inversion Hp as [|? ? Hp1 Hp2]; subst.
    rewrite write_all_cons, IH.
    + unfold write_note. simpl.
      rewrite put_fresh by (apply Hnew; now left).
      rewrite length_app. simpl. lia.
    + exact Hp2.
    + intros q Hq. unfold write_note. simpl.
      rewrite get_put_other by (intros ->; contradiction).
      apply Hnew. now right.
Qed.

End FsFacts.


(* ================================================================== *)
(** ** A run of [main], in general *)

Module MainFacts.

Lemma str_app_inv_tail (a b s : string) : a ++ s = b ++ s -> a = b.
Proof.
  revert b. induction a as [|x a IH]; intros b H.
  - destruct b as [|y b]; [reflexivity|].
    apply (f_equal String.length) in H. simpl in H. rewrite StrFacts.length_app in H. lia.
  - destruct b as [|y b].
    + apply (f_equal String.length) in H. simpl in H. rewrite StrFacts.length_app in H. lia.
    + simpl in H. injection H as -> H. f_equal. now apply IH.
Qed.

Lemma before_last_dot_none t : occurs "." t = false -> before_last_dot t = None.
Proof.
  induction t as [|x t IH]; [reflexivity|]. simpl. intros H.
  apply orb_false_iff in H as [Hx Ht]. now rewrite (IH Ht), Hx.
Qed.

Lemma target_nonempty dir c t :
  occurs "." (String c t) = false ->
  target_of dir (String c t) = Ok (dir ++ [(String c t ++ ".md")%string])%list.
Proof.
  intros H. unfold target_of, joinpath. apply with_suffix_last.
  simpl in H. apply orb_false_iff in H as [_ H]. now apply before_last_dot_none.
Qed.

Lemma with_suffix_length p s q : with_suffix p s = Ok q -> length q = length p.
Proof.
  revert q. induction p as [|part p IH]; intros q; [discriminate|].
  destruct p as [|part' p'].
  - simpl. destruct (name_with_suffix part s); simpl; [|discriminate]. now intros [= <-].
  - change (with_suffix (part :: part' :: p') s)
      with (p'' <- with_suffix (part' :: p') s ;; Ok (part :: p'')).
    destruct (with_suffix (part' :: p') s) as [q'|]; simpl; [|discriminate].
    intros [= <-]. simpl. f_equal. now apply IH.
Qed.

(** The keys without a period go to paths that differ. *)
Lemma target_inj dir k k' q :
  occurs "." k = false -> occurs "." k' = false ->
  target_of dir k = Ok q -> target_of dir k' = Ok q -> k = k'.
Proof.
  intros Hk Hk' H H'.
  destruct k as [|c t], k' as [|c' t']; [reflexivity | | |].
  - rewrite target_nonempty in H' by exact Hk'. injection H' as <-.
    unfold target_of, joinpath in H. apply with_suffix_length in H.
    rewrite length_app in H. simpl in H. lia.
  - rewrite target_nonempty in H by exact Hk. injection H as <-.
    unfold target_of, joinpath in H'. apply with_suffix_length in H'.
    rewrite length_app in H'. simpl in H'. lia.
  - rewrite target_nonempty in H by exact Hk. rewrite target_nonempty in H' by exact Hk'.
    rewrite <- H' in H. injection H as H. apply List.app_inv_head in H.
    injection H as Hc Ht. subst c'. f_equal. now apply str_app_inv_tail in Ht.
Qed.

Lemma paths_set_fresh acc q n :
  ~ In q (map fst acc) -> paths_set acc q n = (acc ++ [(q, n)])%list.
Proof.
  intros H. unfold paths_set.
  assert (E : existsb (fun qn : Path * Note => path_eqb (fst qn) q) acc = false).
  { induction acc as [|[p m] acc IH]; [reflexivity|]. simpl.
    rewrite IH by (intros I; apply H; now right).
    rewrite orb_false_r. apply FsFacts.path_eqb_false. intros ->. apply H. now left. }
  now rewrite E.
Qed.

Lemma target_paths_acc dir items acc targets :
  target_paths dir items acc = Ok targets ->
  NoDup (Dict.keys items) ->
  (forall k, In k (Dict.keys items) -> occurs "." k = false) ->
  NoDup (map fst acc) ->
  (forall q, In q (map fst acc) ->
     exists k, target_of dir k = Ok q /\ occurs "." k = false /\ ~ In k (Dict.keys items)) ->
  exists new,
    targets = (acc ++ new)%list
    /\ Forall2 (fun kn pn => target_of dir (fst kn) = Ok (fst pn) /\ snd pn = snd kn) items new
    /\ NoDup (map fst targets).
Proof.
  revert acc. induction items as [|[k n] items IH]; intros acc H Hnd Hdot Hacc Hsrc.
  - simpl in H. injection H as <-. exists []. rewrite List.app_nil_r. repeat split; [constructor | exact Hacc].
  - simpl in H. fold (target_of dir k) in H.
    destruct (target_of dir k) as [q|] eqn:Eq; [|discriminate]. simpl in H.
    simpl in Hnd. inversion Hnd as [|? ? Hk Hnd']; subst.
    assert (Hq : ~ In q (map fst acc)).
    { intros I. destruct (Hsrc q I) as (k' & Hk' & Hd & Hn).
      assert (k = k') by (eapply target_inj; eauto; apply Hdot; now left).
      subst k'. apply Hn. now left. }
    rewrite paths_set_fresh in H by exact Hq.
    apply IH in H.
    + destruct H as (new & -> & Hf & Hn). exists ((q, n) :: new).
      rewrite <- List.app_assoc in *. repeat split; [|exact Hn].
      constructor; [auto | exact Hf].
    + exact Hnd'.
    + intros k0 Hk0. apply Hdot. now right.
    + rewrite map_app. simpl. apply NoDup_app; [exact Hacc | repeat constructor; tauto |].
      intros x Hx [<-|[]]. contradiction.
    + intros q0 Hq0. rewrite map_app in Hq0. apply in_app_or in Hq0 as [Hq0|[<-|[]]].
      * destruct (Hsrc q0 Hq0) as (k' & Hk' & Hd & Hn). exists k'.
        repeat split; try assumption. intros I. apply Hn. now right.
      * exists k. repeat split; [exact Eq | apply Hdot; now left | exact Hk].
Qed.

Lemma filter_nil (A : Type) (f : A -> bool) l :
  filter f l = [] -> forall x, In x l -> f x = false.
Proof.
  intros H x Hin. destruct (f x) eqn:E; [|reflexivity].
  assert (I : In x (filter f l)) by (apply filter_In; auto).
  rewrite H in I. contradiction.
Qed.

(** The steps of a run that ends well. *)
Lemma main_inv isoparse a fs h' fs' :
  main isoparse a fs = Ok (h', fs') ->
  exists pairs h res targets,
    parse_infile isoparse [] (infile a) = Ok (pairs, h)
    /\ pairs <> []
    /\ returned (dedup_paths (group_notes pairs) (dedup a)) = Ok res
    /\ target_paths (outdir a) res [] = Ok targets
    /\ (overwrite a = false -> forall p, In p (map fst targets) -> fs_get fs p = None)
    /\ write_all targets h fs = (h', fs').
Proof.
  unfold main.
  destruct (parse_infile isoparse [] (infile a)) as [[pairs h]|] eqn:Ep; [|discriminate].
  cbn [bind]. destruct (length pairs =? 0) eqn:En; [discriminate|].
  destruct (returned (dedup_paths (group_notes pairs) (dedup a))) as [res|] eqn:Ed;
    [|discriminate].
  cbn [bind]. destruct (target_paths (outdir a) res []) as [targets|] eqn:Et; [|discriminate].
  cbn [bind]. intros H. exists pairs, h, res, targets.
  split; [reflexivity|]. split; [destruct pairs; [discriminate En | discriminate]|].
  split; [exact Ed|]. split; [exact Et|].
  set (existing := filter _ targets) in H.
  destruct (overwrite a) eqn:Eo.
  - split; [discriminate|]. now injection H.
  - destruct existing as [|[p n] ex] eqn:Ee; [|discriminate].
    split; [|now injection H].
    intros _ p Hp. apply in_map_iff in Hp as ([p' n] & <- & Hin).
    pose proof (filter_nil _ _ _ Ee (p', n) Hin) as Hf. simpl in Hf.
    simpl. destruct (fs_get fs p'); [discriminate | reflexivity].
Qed.

Lemma group_notes_keys pairs k :
  In k (Dict.keys (group_notes pairs)) -> In k (map fst pairs).
Proof.
  change (group_notes pairs) with (fold_left add_pair pairs []).
  intros H. apply DictFacts.mem_true in H. unfold Dict.mem in H.
  rewrite GroupingFacts.fold_get in H. simpl in H. unfold notes_under in H.
  destruct (filter (fun pn : string * Note => String.eqb (fst pn) k) pairs) as [|pn l] eqn:E;
    [discriminate|].
  assert (I : In pn (filter (fun pn : string * Note => String.eqb (fst pn) k) pairs))
    by (rewrite E; now left).
  apply filter_In in I as [I Hk]. apply String.eqb_eq in Hk. subst k. now apply in_map.
Qed.

Lemma forall2_values (dir : Path) (res : Dict.t Note) (targets : list (Path * Note)) :
  Forall2 (fun kn pn => target_of dir (fst kn) = Ok (fst pn) /\ snd pn = snd kn) res targets ->
  map snd targets = Dict.values res.
Proof.
  induction 1 as [|kn pn res targets [_ H] _ IH]; [reflexivity|].
  simpl. now rewrite H, IH.
Qed.

(** What a run that ends well has done: it read a pair for each
    entry, chose paths that differ for the notes of the pairs, and
    wrote them. *)
Lemma main_pipeline isoparse a fs h' fs' :
  main isoparse a fs = Ok (h', fs') ->
  exists pairs h targets,
    Forall2 (read_from isoparse h) (infile a) pairs
    /\ Permutation (map snd targets) (map snd pairs)
    /\ NoDup (map fst targets)
    /\ NoDup (map (fun pn : Path * Note => metadata (snd pn)) targets)
    /\ (overwrite a = false -> forall p, In p (map fst targets) -> fs_get fs p = None)
    /\ write_all targets h fs = (h', fs').
Proof.
  intros H. apply main_inv in H.
  destruct H as (pairs & h & res & targets & Hp & Hne & Hd & Ht & Hnew & Hw).
  exists pairs, h, targets.
  pose proof (InfileFacts.parse_infile_notes _ _ _ _ _ Hp) as Hread.
  destruct (InfileFacts.parse_infile_layout _ _ _ _ _ Hp) as (_ & Hlocs & _ & _).
  assert (Hdots : forall k, In k (Dict.keys (group_notes pairs)) -> occurs "." k = false).
  { intros k Hk. apply group_notes_keys in Hk. apply in_map_iff in Hk as (pn & <- & Hin).
    clear - Hread Hin.
    induction Hread as [|entry pn' entries pairs Hr _ IH]; [contradiction|].
    destruct Hin as [->|Hin]; [|now apply IH].
    destruct Hr as (text & cs & ms & _ & _ & _ & _ & _ & -> & _).
    destruct (ParseFacts.split_title_fst text) as [_ Hs].
    apply ParseFacts.has_sep_occurs, ParseFacts.translate_no_sep, Hs. }
  pose proof Hd as Hd'. unfold dedup_paths in Hd'.
  pose proof (CharsetFacts.rounds_free "." (dedup_schemes (dedup a))
                (mkStore (group_notes pairs) []) CallerDict LocalDict 0 res eq_refl
                ltac:(discriminate) eq_refl Hdots Hd') as Hresdots.
  apply GroupFacts.rounds_returns in Hd'; [|discriminate|reflexivity].
  destruct Hd' as [Hresnd Hresperm]. simpl in Hresperm.
  destruct (target_paths_acc _ _ _ _ Ht Hresnd Hresdots (NoDup_nil _)) as (new & E & Hf & Hnd).
  { intros q []. }
  simpl in E. subst new.
  assert (Hvals : Permutation (map snd targets) (map snd pairs)).
  { rewrite (forall2_values _ _ _ Hf), Hresperm.
    change (group_notes pairs) with (fold_left add_pair pairs []).
    now rewrite GroupingFacts.fold_notes. }
  repeat split; try assumption.
  rewrite <- (map_map snd metadata).
  eapply Permutation_NoDup; [symmetry; apply Permutation_map, Hvals|].
  rewrite map_map, Hlocs. apply seq_NoDup.
Qed.

End MainFacts.

(** X13.  Without [--overwrite], a run of [main] that ends well has replaced
    no file: every file that was there before the run is there after
    it, as it was. *)
Theorem main_keeps_existing_files :
  forall isoparse (a : args) (fs : filesystem) h' fs',
  overwrite a = false ->
  main isoparse a fs = Ok (h', fs') ->
  forall q f, fs_get fs q = Some f -> fs_get fs' q = Some f.
Proof.
  intros isoparse a fs h' fs' Ho H q f Hq.
  apply MainFacts.main_pipeline in H.
  destruct H as (pairs & h & targets & _ & _ & _ & _ & Hnew & Hw).
  replace fs' with (snd (write_all targets h fs)) by now rewrite Hw.
  rewrite FsFacts.write_all_fs_frame; [exact Hq|].
  intros I. rewrite (Hnew Ho q I) in Hq. discriminate.
Qed.

(** The record of scenario A, written beside a file that is there. *)
Lemma main_keeps_existing_files_witness :
  fs_get [(["out"; "old.md"], mkFile [] "old" buy_milk_time);
          (["out"; "Buy milk.md"],
           mkFile buy_milk_header " Remember eggs too" buy_milk_time)]
         ["out"; "old.md"]
  = Some (mkFile [] "old" buy_milk_time).
Proof.
  exact (main_keeps_existing_files Iso.isoparse
           (mkArgs [buy_milk] ["out"] false datetime_scheme)
           [(["out"; "old.md"], mkFile [] "old" buy_milk_time)]
           [buy_milk_header]
           [(["out"; "old.md"], mkFile [] "old" buy_milk_time);
            (["out"; "Buy milk.md"],
             mkFile buy_milk_header " Remember eggs too" buy_milk_time)]
           eq_refl eq_refl ["out"; "old.md"] (mkFile [] "old" buy_milk_time) eq_refl).
Defined.

(** X14.  Without [--overwrite], a run of [main] that ends well leaves one
    new file for each entry of the input: the notes get paths that
    differ from one another and from the files that were there. *)
Theorem main_one_file_per_entry :
  forall isoparse (a : args) (fs : filesystem) h' fs',
  overwrite a = false ->
  main isoparse a fs = Ok (h', fs') ->
  length fs' = length fs + length (infile a).
Proof.
  intros isoparse a fs h' fs' Ho H.
  apply MainFacts.main_pipeline in H.
  destruct H as (pairs & h & targets & Hread & Hperm & Hnd & _ & Hnew & Hw).
  replace fs' with (snd (write_all targets h fs)) by now rewrite Hw.
  rewrite FsFacts.write_all_length; [|exact Hnd | exact (Hnew Ho)].
  f_equal. apply Forall2_length in Hread. apply Permutation_length in Hperm.
  rewrite !length_map in Hperm. lia.
Qed.

(** Two entries with the same first sentence, written of the same
    second. *)
Lemma main_one_file_per_entry_witness :
  length [(["out"; "2023-01-01 10-00-00  Buy milk 1.md"],
           mkFile buy_milk_header " Remember eggs too" buy_milk_time);
          (["out"; "2023-01-01 10-00-00  Buy milk 2.md"],
           mkFile buy_milk_header " Remember eggs too" buy_milk_time)]
  = length (@nil (Path * file)) + length [buy_milk; buy_milk].
Proof.
  exact (main_one_file_per_entry Iso.isoparse
           (mkArgs [buy_milk; buy_milk] ["out"] false datetime_scheme) []
           [buy_milk_header; buy_milk_header]
           [(["out"; "2023-01-01 10-00-00  Buy milk 1.md"],
             mkFile buy_milk_header " Remember eggs too" buy_milk_time);
            (["out"; "2023-01-01 10-00-00  Buy milk 2.md"],
             mkFile buy_milk_header " Remember eggs too" buy_milk_time)]
           eq_refl eq_refl).
Defined.



Module ErrorFacts.




End ErrorFacts.



(* ================================================================== *)
(** ** Notes of the same second *)

Module SameSecond.

Lemma singletons_numbered path start dups :
  singletons (numbered_notes path start dups) = numbered path start dups.
Proof.
  revert start. induction dups as [|dup dups IH]; intros start; [reflexivity|].
  simpl. now rewrite IH.
Qed.

Lemma numbered_keys_from path start dups k :
  In k (Dict.keys (numbered_notes path start dups)) ->
  exists j, start <= j /\ k = with_seqno path j.
Proof.
  revert start. induction dups as [|dup dups IH]; intros start; simpl; [contradiction|].
  intros [<-|H]; [exists start; auto|].
  destruct (IH _ H) as (j & Hj & ->). exists j. split; [lia | reflexivity].
Qed.

Lemma numbered_keys_nodup path start dups :
  NoDup (Dict.keys (numbered_notes path start dups)).
Proof.
  revert start. induction dups as [|dup dups IH]; intros start; simpl; constructor; [|apply IH].
  intros H. apply numbered_keys_from in H as (j & Hj & E).
  apply SeqnoFacts.with_seqno_inj in E. lia.
Qed.

(** Notes whose calls all give the key [K] gather under [K]. *)
Lemma fill_dups_gather fn path dups K l0 n :
  (forall dup w, In dup dups ->
     exists s, call fn w path dup = Ok s /\ Str.rstrip s = K) ->
  fill_dups fn path dups [(K, l0)] n
  = mkFilled [(K, (l0 ++ dups)%list)] (n + length dups) None.
Proof.
  revert l0 n. induction dups as [|dup dups IH]; intros l0 n H.
  - simpl. now rewrite List.app_nil_r, Nat.add_0_r.
  - destruct (H dup [(K, l0)] (or_introl eq_refl)) as (s & Hc & Hs).
    cbn [fill_dups]. rewrite Hc, Hs. unfold dd_append. cbn [dd_extend].
    rewrite String.eqb_refl, IH by (intros d w Hd; apply H; now right).
    rewrite <- List.app_assoc. simpl. f_equal. lia.
Qed.

Lemma fill_gather fn path dups K n :
  1 < length dups ->
  (forall dup w, In dup dups ->
     exists s, call fn w path dup = Ok s /\ Str.rstrip s = K) ->
  fill fn [(path, dups)] [] n = mkFilled [(K, dups)] (n + length dups) None.
Proof.
  intros Hl H. cbn [fill]. apply Nat.ltb_lt in Hl. rewrite Hl.
  destruct dups as [|dup dups]; [discriminate|].
  destruct (H dup [] (or_introl eq_refl)) as (s & Hc & Hs).
  cbn [fill_dups]. rewrite Hc, Hs. unfold dd_append. cbn [dd_extend].
  rewrite (fill_dups_gather fn path dups K [dup] (S n))
    by (intros d w Hd; apply H; now right).
  cbn [f_raised f_working f_calls app length]. f_equal. lia.
Qed.

Lemma collapse_collision K dups (rest : grouping) acc :
  1 < length dups -> collapse ((K, dups) :: rest) acc = Conflict.
Proof. intros Hl. simpl. apply Nat.ltb_lt in Hl. now rewrite Hl. Qed.

(** The last round: numbers for the notes gathered under [K]. *)
Lemma seqno_round K dups s notes working n :
  2 <= length dups ->
  rd s notes = [(K, dups)] -> rd s working = [] ->
  (length dups <= 999 ->
     returned (rounds [AppendSeqno] s notes working n) = Ok (numbered_notes K 1 dups))
  /\ (1000 <= length dups ->
        returned (rounds [AppendSeqno] s notes working n) = Raise (seqno_exhausted K)).
Proof.
  intros Hl Hn Hw. cbn [rounds]. rewrite Hn, Hw.
  cbn [fill]. replace (1 <? length dups) with true by (symmetry; apply Nat.ltb_lt; lia).
  rewrite (SeqnoFacts.fill_dups_numbered K dups 1 [] n)
    by (try lia; intros j Hj; try lia; reflexivity).
  split; intros Hlen.
  - replace (1 + length dups <=? 1000) with true by (symmetry; apply Nat.leb_le; lia).
    cbn [f_raised f_working f_calls app fill].
    rewrite <- singletons_numbered.
    rewrite GroupFacts.collapse_singletons by apply numbered_keys_nodup.
    cbn [app]. destruct dups as [|dup dups]; [simpl in Hl; lia | reflexivity].
  - replace (1 + length dups <=? 1000) with false by (symmetry; apply Nat.leb_gt; lia).
    reflexivity.
Qed.

End SameSecond.

(** X10.  A grouping of one title whose notes, two or more, were all created
    at the same second [t].  Under the seqno scheme the notes get the
    dated key and the numbers 1, 2, ... in their order; under the
    datetime scheme they get the key with the full timestamp and the
    numbers.  From 1000 notes on, either scheme raises "could not
    dedup path" for that key. *)
Theorem dedup_paths_same_second :
  forall (path : string) (dups : list Note) (t : datetime),
  2 <= length dups ->
  (forall dup, In dup dups -> created dup = t) ->
  (length dups <= 999 ->
     returned (dedup_paths [(path, dups)] seqno_scheme)
     = Ok (numbered_notes (dated_key t path) 1 dups)
     /\ returned (dedup_paths [(path, dups)] datetime_scheme)
        = Ok (numbered_notes (stamped_key t path) 1 dups))
  /\ (1000 <= length dups ->
        returned (dedup_paths [(path, dups)] seqno_scheme)
        = Raise (seqno_exhausted (dated_key t path))
        /\ returned (dedup_paths [(path, dups)] datetime_scheme)
           = Raise (seqno_exhausted (stamped_key t path))).
Proof.
  intros path dups t Hl Ht.
  assert (H1 : forall n, fill PrependDate [(path, dups)] [] n
                         = mkFilled [(dated_key t path, dups)] (n + length dups) None).
  { intros n. apply SameSecond.fill_gather; [lia|].
    intros dup w Hd. eexists. split; [reflexivity|].
    unfold _prepend_date, dated_key. now rewrite (Ht dup Hd). }
  assert (H2 : forall n, fill PrependDatetime [(dated_key t path, dups)] [] n
                         = mkFilled [(stamped_key t path, dups)] (n + length dups) None).
  { intros n. apply SameSecond.fill_gather; [lia|].
    intros dup w Hd. eexists. split; [reflexivity|].
    unfold _prepend_datetime, stamped_key. now rewrite (Ht dup Hd). }
  assert (Hc : forall K acc, collapse [(K, dups)] acc = Conflict)
    by (intros; apply SameSecond.collapse_collision; lia).
  assert (Hs : returned (dedup_paths [(path, dups)] seqno_scheme)
               = returned (rounds [AppendSeqno] (mkStore [] [(dated_key t path, dups)])
                             LocalDict CallerDict (0 + length dups))).
  { unfold dedup_paths. cbn [dedup_schemes]. cbn [rounds rd wr caller_dict local_dict].
    rewrite H1. cbn [f_raised f_working f_calls]. rewrite Hc. reflexivity. }
  assert (Hd : returned (dedup_paths [(path, dups)] datetime_scheme)
               = returned (rounds [AppendSeqno] (mkStore [(stamped_key t path, dups)] [])
                             CallerDict LocalDict (0 + length dups + length dups))).
  { unfold dedup_paths. cbn [dedup_schemes]. cbn [rounds rd wr caller_dict local_dict].
    rewrite H1. cbn [f_raised f_working f_calls]. rewrite Hc.
    cbn [rounds rd wr caller_dict local_dict].
    rewrite H2. cbn [f_raised f_working f_calls]. rewrite Hc. reflexivity. }
  rewrite Hs, Hd.
  destruct (SameSecond.seqno_round (dated_key t path) dups
              (mkStore [] [(dated_key t path, dups)]) LocalDict CallerDict
              (0 + length dups) Hl eq_refl eq_refl) as [Rs1 Rs2].
  destruct (SameSecond.seqno_round (stamped_key t path) dups
              (mkStore [(stamped_key t path, dups)] []) CallerDict LocalDict
              (0 + length dups + length dups) Hl eq_refl eq_refl) as [Rd1 Rd2].
  split; intros Hn; split; auto.
Qed.

(** Three notes of 1 January 2023, 10:00:00, titled [T]. *)
Lemma dedup_paths_same_second_witness :
  let n := mkNote 0 buy_milk_time buy_milk_time "" in
  returned (dedup_paths [("T", [n; n; n])] seqno_scheme)
  = Ok [("2023-01-01 T 1", n); ("2023-01-01 T 2", n); ("2023-01-01 T 3", n)]
  /\ returned (dedup_paths [("T", [n; n; n])] datetime_scheme)
     = Ok [("2023-01-01 10-00-00  T 1", n); ("2023-01-01 10-00-00  T 2", n);
           ("2023-01-01 10-00-00  T 3", n)].
Proof.
  intros n.
  destruct (dedup_paths_same_second "T" [n; n; n] buy_milk_time) as [H _].
  - simpl. lia.
  - intros dup Hd. simpl in Hd. intuition (subst; reflexivity).
  - apply H. simpl. lia.
Defined.

(** X11.  When the first round does not fail — it returns, or an empty group
    stops it — [dedup_paths] leaves the caller's dictionary as it
    was. *)
Theorem caller_dict_untouched : forall (notes : grouping) (s : scheme),
  first_round_fails notes s = false ->
  caller_after (dedup_paths notes s) = notes.
Proof.
  intros notes s. unfold first_round_fails, dedup_paths.
  assert (H : forall fns,
             match f_raised (fill PrependDate notes [] 0),
                   collapse (f_working (fill PrependDate notes [] 0)) [] with
             | None, Built [] | None, Conflict => true
             | _, _ => false
             end = false ->
             caller_after (rounds (PrependDate :: fns) (mkStore notes []) CallerDict LocalDict 0)
             = notes).
  { intros fns. cbn [rounds rd wr caller_dict local_dict].
    destruct (f_raised (fill PrependDate notes [] 0)); [reflexivity|].
    destruct (collapse _ []) as [[|item result]| |]; try discriminate; reflexivity. }
  destruct s; apply H.
Qed.

(** Two titles, one note each. *)
Lemma caller_dict_untouched_witness :
  let n := mkNote 0 buy_milk_time buy_milk_time "" in
  caller_after (dedup_paths [("A", [n]); ("B", [n])] datetime_scheme)
  = [("A", [n]); ("B", [n])].
Proof.
  intros n. apply caller_dict_untouched. reflexivity.
Defined.
